(** * conqueue: the double-ended queue of queue_r.c

    A shallow embedding of queue_r.c (the thread-safe deque of
    queue_r.h) and the properties of its public functions.

    - Pointers are integers, [NULL] is 0.
    - The node storage is a finite map from addresses to [node] records;
      [malloc] and [free] add and remove blocks.
    - Every function of queue_r.c is a computation in the monad [M]: it
      threads the memory (queue struct and node storage) and ends in one of
      four ways, see [outcome].
    - A thread that reaches [pthread_cond_wait] is suspended: the function
      [Blocks].  The code from the lock acquisition on is a definition of its
      own ([q_push_front_locked] and the like): it is what a waiter executes
      when it is woken, on the state that the other threads left. *)

From Stdlib Require Import ZArith Lia.
From stdpp Require Import base gmap list.

Open Scope Z_scope.

(** ** Data model (queue_r.h) *)

Definition ptr := Z.
Definition NULL : ptr := 0.

Definition EXIT_SUCCESS : Z := 0.
Definition EXIT_FAILURE : Z := 1.

(** [int] arithmetic: two's complement on 32 bits. *)
Definition wrap_int (z : Z) : Z := (z + 2 ^ 31) mod 2 ^ 32 - 2 ^ 31.
Definition int_range (z : Z) : Prop := - 2 ^ 31 <= z < 2 ^ 31.

(** [struct node_struct]. *)
Record node : Type := Node {
  object : ptr;
  prev : ptr;
  next : ptr
}.

(** The memory the functions work on: the fields of the one
    [queue_r_t] they are given, and the blocks that hold its nodes.
    [lock] is the mutex (true when held); the two condition variables carry
    no data. *)
Record state : Type := State {
  heap : gmap Z node;
  head : ptr;
  tail : ptr;
  lock : bool;
  readers : Z;
  destroyed : Z
}.

(** The [queue_r_t *] argument: the null pointer, or the address of the
    queue of the state. *)
Inductive queue_ptr : Type := NULL_queue | queue_addr.

(** The [void ( * )(void * )] argument of [q_traverse]: the null pointer or a
    function.  A call of the function is recorded by its argument. *)
Inductive callback : Type := NULL_callback | callback_fn.

(** ** Outcomes and the monad *)

Inductive outcome (A : Type) : Type :=
| Returns (a : A) (st : state)  (* the function returns a, memory is st *)
| Blocks (st : state)           (* suspended on the mutex or in
                                   pthread_cond_wait, memory is st *)
| Faults                        (* null or dangling pointer dereferenced,
                                   or an invalid free *)
| Diverges.                     (* a loop that does not end *)
Arguments Returns {A} a st.
Arguments Blocks {A} st.
Arguments Faults {A}.
Arguments Diverges {A}.

Definition M (A : Type) : Type := state -> outcome A.

Definition ret {A} (a : A) : M A := fun st => Returns a st.

Definition bind {A B} (m : M A) (k : A -> M B) : M B :=
  fun st =>
    match m st with
    | Returns a st' => k a st'
    | Blocks st' => Blocks st'
    | Faults => Faults
    | Diverges => Diverges
    end.

Notation "'do' x <- m ; k" := (bind m (fun x => k))
  (at level 10, x name, m at level 99, k at level 200).
Notation "m >> k" := (bind m (fun _ => k))
  (at level 99, k at level 200, right associativity).

Definition get {A} (f : state -> A) : M A := fun st => Returns (f st) st.
Definition modify (f : state -> state) : M unit := fun st => Returns tt (f st).
Definition diverge {A} : M A := fun _ => Diverges.

(** Field updates of the queue struct. *)
Definition set_heap (h : gmap Z node) (st : state) : state :=
  State h (head st) (tail st) (lock st) (readers st) (destroyed st).
Definition set_head (p : ptr) (st : state) : state :=
  State (heap st) p (tail st) (lock st) (readers st) (destroyed st).
Definition set_tail (p : ptr) (st : state) : state :=
  State (heap st) (head st) p (lock st) (readers st) (destroyed st).
Definition set_lock (b : bool) (st : state) : state :=
  State (heap st) (head st) (tail st) b (readers st) (destroyed st).
Definition set_readers (r : Z) (st : state) : state :=
  State (heap st) (head st) (tail st) (lock st) r (destroyed st).
Definition set_destroyed (d : Z) (st : state) : state :=
  State (heap st) (head st) (tail st) (lock st) (readers st) d.

(** C truth value of an integer or pointer. *)
Definition truthy (z : Z) : bool := negb (z =? 0).

(** ** Node storage *)

(** [p->field]: a fault when p is NULL or not the address of a live
    block. *)
Definition load (p : ptr) : M node :=
  fun st =>
    if truthy p
    then match heap st !! p with
         | Some n => Returns n st
         | None => Faults
         end
    else Faults.

(** [p->field = v], by the function that rewrites the field. *)
Definition store (p : ptr) (f : node -> node) : M unit :=
  fun st =>
    if truthy p
    then match heap st !! p with
         | Some n => Returns tt (set_heap (<[p := f n]> (heap st)) st)
         | None => Faults
         end
    else Faults.

Definition with_object (v : ptr) (n : node) : node := Node v (prev n) (next n).
Definition with_prev (v : ptr) (n : node) : node := Node (object n) v (next n).
Definition with_next (v : ptr) (n : node) : node := Node (object n) (prev n) v.

(** [malloc(sizeof(node))].  The allocator's answer [m] is given from
    outside: NULL when it fails, the address of the new block otherwise.  The
    new block holds [junk], any contents, until it is written. *)
Definition malloc (junk : node) (m : ptr) : M ptr :=
  fun st =>
    if truthy m
    then Returns m (set_heap (<[m := junk]> (heap st)) st)
    else Returns NULL st.

(** The answers [malloc] may give in a state. *)
Definition malloc_answer (st : state) (m : ptr) : Prop :=
  m = NULL \/ heap st !! m = None.

(** [free(p)]: nothing for NULL, a fault unless p is a live block. *)
Definition free (p : ptr) : M unit :=
  fun st =>
    if truthy p
    then match heap st !! p with
         | Some _ => Returns tt (set_heap (delete p (heap st)) st)
         | None => Faults
         end
    else Returns tt st.

(** ** Synchronisation primitives *)

Definition pthread_mutex_lock : M unit :=
  fun st => if lock st then Blocks st else Returns tt (set_lock true st).

Definition pthread_mutex_unlock : M unit := modify (set_lock false).

(** [while (c) pthread_cond_wait(cond, &queue->lock)]: when the condition
    holds the thread releases the mutex and sleeps. *)
Definition wait_while (c : state -> bool) : M unit :=
  fun st => if c st then Blocks (set_lock false st) else Returns tt st.

(** Waking the waiters changes no memory. *)
Definition pthread_cond_broadcast : M unit := ret tt.

(** ** queue_r.c *)

Section Queue_r.

(** What a block holds when [malloc] hands it out. *)
Variable junk : node.

Definition read_unlock : M unit :=
  pthread_mutex_lock >>
  modify (fun st => set_readers (wrap_int (readers st - 1)) st) >>
  do r <- get readers;
  (if r =? 0 then pthread_cond_broadcast else ret tt) >>
  pthread_mutex_unlock.

Definition read_lock : M unit :=
  pthread_mutex_lock >>
  wait_while (fun st => negb (truthy (head st)) && negb (truthy (destroyed st))) >>
  modify (fun st => set_readers (wrap_int (readers st + 1)) st) >>
  pthread_mutex_unlock.

Definition write_unlock : M unit :=
  pthread_cond_broadcast >>
  pthread_cond_broadcast >>
  pthread_mutex_unlock.

Definition write_lock_push : M unit :=
  pthread_mutex_lock >>
  wait_while (fun st => truthy (readers st) && negb (truthy (destroyed st))).

Definition write_lock_pop : M unit :=
  pthread_mutex_lock >>
  wait_while (fun st => (negb (truthy (head st)) || truthy (readers st))
                        && negb (truthy (destroyed st))).

Definition create_first_node (queue : queue_ptr) (object : ptr) (m : ptr)
  : M unit :=
  match queue with
  | NULL_queue => ret tt
  | queue_addr =>
      do h <- get head;
      do t <- get tail;
      if negb (truthy object) || truthy h || truthy t then ret tt
      else
        (* create head *)
        do p <- malloc junk m;
        modify (set_head p) >>
        do h <- get head; store h (with_object object) >>
        do h <- get head; store h (with_prev NULL) >>
        do h <- get head; store h (with_next NULL) >>
        (* tail node is the same as head node *)
        do h <- get head; modify (set_tail h)
  end.

Definition q_init (queue : queue_ptr) : M Z :=
  match queue with
  | NULL_queue => ret EXIT_FAILURE
  | queue_addr =>
      modify (set_head NULL) >>
      modify (set_tail NULL) >>
      modify (set_readers 0) >>
      modify (set_destroyed 0) >>
      ret EXIT_SUCCESS
  end.

(** [q_push_front] from [write_lock_push(queue)] on. *)
Definition q_push_front_locked (object : ptr) (m : ptr) : M Z :=
  write_lock_push >>
  do d <- get destroyed;
  do return_value <-
    (if truthy d then ret EXIT_FAILURE
     else
       do h <- get head;
       if negb (truthy h)
       then create_first_node queue_addr object m >> ret EXIT_SUCCESS
       else
         (* create new node *)
         do new_node <- malloc junk m;
         if truthy new_node
         then
           store new_node (with_object object) >>
           store new_node (with_prev NULL) >>
           do h <- get head; store new_node (with_next h) >>
           (* change head *)
           do h <- get head; store h (with_prev new_node) >>
           modify (set_head new_node) >>
           ret EXIT_SUCCESS
         else ret EXIT_FAILURE);
  write_unlock >>
  ret return_value.

Definition q_push_front (queue : queue_ptr) (object : ptr) (m : ptr) : M Z :=
  match queue with
  | NULL_queue => ret EXIT_FAILURE
  | queue_addr =>
      do d <- get destroyed;
      if negb (truthy object) || truthy d then ret EXIT_FAILURE
      else q_push_front_locked object m
  end.

(** [q_push_back] from [write_lock_push(queue)] on. *)
Definition q_push_back_locked (object : ptr) (m : ptr) : M Z :=
  write_lock_push >>
  do d <- get destroyed;
  do return_value <-
    (if truthy d then ret EXIT_FAILURE
     else
       do t <- get tail;
       if negb (truthy t)
       then create_first_node queue_addr object m >> ret EXIT_SUCCESS
       else
         (* create new node *)
         do new_node <- malloc junk m;
         if truthy new_node
         then
           store new_node (with_object object) >>
           do t <- get tail; store new_node (with_prev t) >>
           store new_node (with_next NULL) >>
           do t <- get tail; store t (with_next new_node) >>
           modify (set_tail new_node) >>
           ret EXIT_SUCCESS
         else ret EXIT_FAILURE);
  write_unlock >>
  ret return_value.

Definition q_push_back (queue : queue_ptr) (object : ptr) (m : ptr) : M Z :=
  match queue with
  | NULL_queue => ret EXIT_FAILURE
  | queue_addr =>
      do d <- get destroyed;
      if negb (truthy object) || truthy d then ret EXIT_FAILURE
      else q_push_back_locked object m
  end.

(** [q_pop_front] from [write_lock_pop(queue)] on. *)
Definition q_pop_front_locked : M ptr :=
  write_lock_pop >>
  do d <- get destroyed;
  do front_object <-
    (if negb (truthy d)
     then
       do h <- get head;
       do n <- load h;
       let front_object := object n in
       do t <- get tail;
       (if h =? t
        then
          free h >>
          modify (set_head NULL) >>
          modify (set_tail NULL)
        else
          do n <- load h;
          let head_next := next n in
          free h >>
          store head_next (with_prev NULL) >>
          modify (set_head head_next)) >>
       ret front_object
     else ret NULL);
  write_unlock >>
  ret front_object.

Definition q_pop_front (queue : queue_ptr) : M ptr :=
  match queue with
  | NULL_queue => ret NULL
  | queue_addr =>
      do d <- get destroyed;
      if truthy d then ret NULL else q_pop_front_locked
  end.

(** [q_pop_back] from [write_lock_pop(queue)] on. *)
Definition q_pop_back_locked : M ptr :=
  write_lock_pop >>
  do d <- get destroyed;
  do back_object <-
    (if negb (truthy d)
     then
       do t <- get tail;
       do n <- load t;
       let back_object := object n in
       do h <- get head;
       (if h =? t
        then
          free t >>
          modify (set_head NULL) >>
          modify (set_tail NULL)
        else
          do n <- load t;
          let tail_prev := prev n in
          free t >>
          store tail_prev (with_next NULL) >>
          modify (set_tail tail_prev)) >>
       ret back_object
     else ret NULL);
  write_unlock >>
  ret back_object.

Definition q_pop_back (queue : queue_ptr) : M ptr :=
  match queue with
  | NULL_queue => ret NULL
  | queue_addr =>
      do d <- get destroyed;
      if truthy d then ret NULL else q_pop_back_locked
  end.

(** [for (node *current = queue->head; current; current = current->next)
    traverse(current->object);] of [q_traverse].  The result lists the
    arguments of the calls of [traverse], in the order of the calls.  A loop
    that visits more nodes than there are blocks visits one of them twice
    and never ends: the number of blocks is all the fuel the loop needs. *)
Fixpoint traverse_loop (fuel : nat) (current : ptr) : M (list ptr) :=
  if truthy current
  then
    match fuel with
    | O => diverge
    | S fuel' =>
        do n <- load current;
        do calls <- traverse_loop fuel' (next n);
        ret (object n :: calls)
    end
  else ret [].

(** [q_traverse] from [read_lock(queue)] on. *)
Definition q_traverse_locked : M (Z * list ptr) :=
  read_lock >>
  do d <- get destroyed;
  do result <-
    (if negb (truthy d)
     then
       do h <- get head;
       do blocks <- get heap;
       do calls <- traverse_loop (size blocks) h;
       ret (EXIT_SUCCESS, calls)
     else ret (EXIT_FAILURE, []));
  read_unlock >>
  ret result.

(** The result is the returned [int] with the calls of [traverse]. *)
Definition q_traverse (queue : queue_ptr) (traverse : callback)
  : M (Z * list ptr) :=
  match queue, traverse with
  | NULL_queue, _ => ret (EXIT_FAILURE, [])
  | queue_addr, NULL_callback => ret (EXIT_FAILURE, [])
  | queue_addr, callback_fn =>
      do d <- get destroyed;
      if truthy d then ret (EXIT_FAILURE, []) else q_traverse_locked
  end.

(** [for (node *current = queue->head; current; current = next)
    { next = current->next; free(current); }] of [q_deinit].  Every round
    frees a block, so the number of blocks is fuel enough. *)
Fixpoint free_loop (fuel : nat) (current : ptr) : M unit :=
  if truthy current
  then
    match fuel with
    | O => diverge
    | S fuel' =>
        do n <- load current;
        free current >>
        free_loop fuel' (next n)
    end
  else ret tt.

(** [q_deinit] from [write_lock_push(queue)] on. *)
Definition q_deinit_locked : M unit :=
  write_lock_push >>
  do d <- get destroyed;
  (if negb (truthy d)
   then
     do h <- get head;
     do blocks <- get heap;
     free_loop (size blocks) h >>
     modify (set_head NULL) >>
     modify (set_tail NULL) >>
     modify (set_destroyed 1)
   else ret tt) >>
  write_unlock.

Definition q_deinit (queue : queue_ptr) : M unit :=
  match queue with
  | NULL_queue => ret tt
  | queue_addr =>
      do d <- get destroyed;
      if truthy d then ret tt else q_deinit_locked
  end.

(** ** Sequences of calls *)

(** A call of a public function with its arguments; a push comes with the
    answer [m] that [malloc] gives during the call. *)
Inductive call : Type :=
| call_init (queue : queue_ptr)
| call_push_front (queue : queue_ptr) (object : ptr) (m : ptr)
| call_push_back (queue : queue_ptr) (object : ptr) (m : ptr)
| call_pop_front (queue : queue_ptr)
| call_pop_back (queue : queue_ptr)
| call_traverse (queue : queue_ptr) (traverse : callback)
| call_deinit (queue : queue_ptr).

Inductive result : Type :=
| res_int (r : Z)
| res_ptr (p : ptr)
| res_traverse (r : Z) (calls : list ptr)
| res_void.

Definition exec (c : call) : M result :=
  match c with
  | call_init q => do r <- q_init q; ret (res_int r)
  | call_push_front q x m => do r <- q_push_front q x m; ret (res_int r)
  | call_push_back q x m => do r <- q_push_back q x m; ret (res_int r)
  | call_pop_front q => do p <- q_pop_front q; ret (res_ptr p)
  | call_pop_back q => do p <- q_pop_back q; ret (res_ptr p)
  | call_traverse q f =>
      do r <- q_traverse q f; ret (res_traverse (fst r) (snd r))
  | call_deinit q => q_deinit q >> ret res_void
  end.

(** The calls of one thread, one after the other: the results of the
    calls that return, and how the sequence ends.  It ends at the first call
    that does not return. *)
Fixpoint run (cs : list call) (st : state) : list result * outcome unit :=
  match cs with
  | [] => ([], Returns tt st)
  | c :: cs' =>
      match exec c st with
      | Returns r st' =>
          let (rs, o) := run cs' st' in (r :: rs, o)
      | Blocks st' => ([], Blocks st')
      | Faults => ([], Faults)
      | Diverges => ([], Diverges)
      end
  end.

(** The allocator answers as the C library may: NULL, or a block that is
    not live. *)
Definition call_malloc_answer (st : state) (c : call) : Prop :=
  match c with
  | call_push_front _ _ m | call_push_back _ _ m => malloc_answer st m
  | _ => True
  end.

(** Every allocation of the sequence succeeds. *)
Fixpoint allocations_succeed (cs : list call) (st : state) : Prop :=
  match cs with
  | [] => True
  | c :: cs' =>
      match c with
      | call_push_front _ _ m | call_push_back _ _ m =>
          m <> NULL /\ heap st !! m = None
      | _ => True
      end /\
      match exec c st with
      | Returns _ st' => allocations_succeed cs' st'
      | _ => True
      end
  end.

End Queue_r.

(** ** The list in the memory *)

(** [dlseg h p l cur e]: in the storage [h] the chain that starts at [cur]
    and ends before [e] consists of the nodes [l], each given by its address
    and its payload, in the order of the [next] links; [p] is the [prev] link
    of its first node, and each later node has the address of the node
    before as its [prev] link. *)
Fixpoint dlseg (h : gmap Z node) (p : ptr) (l : list (ptr * ptr))
    (cur e : ptr) : Prop :=
  match l with
  | [] => cur = e
  | (a, x) :: l' =>
      cur = a /\ a <> NULL /\
      exists nx, h !! a = Some (Node x p nx) /\ dlseg h a l' nx e
  end.

(** The queue of the state holds the nodes [l], front to back. *)
Definition queue_repr (st : state) (l : list (ptr * ptr)) : Prop :=
  dlseg (heap st) NULL l (head st) NULL /\
  tail st = default NULL (last l.*1).

(** The structural invariant. *)
Definition queue_inv (st : state) : Prop := exists l, queue_repr st l.

(** The mutex is free, no reader is registered, the queue is not
    destroyed. *)
Definition ready (st : state) : Prop :=
  lock st = false /\ readers st = 0 /\ destroyed st = 0.

(** The pointer reached from [p] by [n] [next] links. *)
Fixpoint follow_next (h : gmap Z node) (n : nat) (p : ptr) : option ptr :=
  match n with
  | O => Some p
  | S n' =>
      match h !! p with
      | Some nd => follow_next h n' (next nd)
      | None => None
      end
  end.

(** The structural invariant in words, for a queue of [count] elements:
    head and tail are null together, and exactly when the queue is empty;
    the head has no predecessor and the tail has no successor; the walk from
    head along [next] visits [count] nodes and the last of them is the tail,
    that is, [count - 1] links lead to the tail and one more leads to NULL;
    a node is the predecessor of its successor. *)
Record structure (st : state) (count : nat) : Prop := {
  head_null_iff_tail_null : head st = NULL <-> tail st = NULL;
  head_null_iff_empty : head st = NULL <-> count = 0%nat;
  head_prev_null :
    head st <> NULL ->
    exists n, heap st !! head st = Some n /\ prev n = NULL;
  tail_next_null :
    tail st <> NULL ->
    exists n, heap st !! tail st = Some n /\ next n = NULL;
  next_reaches_tail :
    count <> 0%nat ->
    follow_next (heap st) (count - 1) (head st) = Some (tail st);
  next_reaches_end :
    follow_next (heap st) count (head st) = Some NULL;
  next_prev_consistent :
    forall (i : nat) (a b : ptr),
      (S i < count)%nat ->
      follow_next (heap st) i (head st) = Some a ->
      follow_next (heap st) (S i) (head st) = Some b ->
      exists na nb,
        heap st !! a = Some na /\ heap st !! b = Some nb /\
        next na = b /\ prev nb = a
}.

(** A call of a deque operation: a push or a pop on the queue, a push
    with a payload. *)
Definition deque_call (c : call) : Prop :=
  match c with
  | call_push_front queue_addr x _ | call_push_back queue_addr x _ => x <> NULL
  | call_pop_front queue_addr | call_pop_back queue_addr => True
  | _ => False
  end.

(** What a call that changes the queue makes of the list [l] of its
    nodes. *)
Definition list_after (c : call) (l l' : list (ptr * ptr)) : Prop :=
  match c with
  | call_init _ | call_deinit _ => l' = []
  | call_push_front _ x m => l' = (m, x) :: l /\ x <> NULL
  | call_push_back _ x m => l' = l ++ [(m, x)] /\ x <> NULL
  | call_pop_front _ => exists a x, l = (a, x) :: l'
  | call_pop_back _ => exists a x, l = l' ++ [(a, x)]
  | call_traverse _ _ => l' = l
  end.

(** The storage after the blocks [l] are freed, in this order. *)
Definition free_all (l : list ptr) (h : gmap Z node) : gmap Z node :=
  fold_left (fun h a => delete a h) l h.

(** What a call that changes the queue makes of the destroyed flag. *)
Definition flag_after (c : call) (l : list (ptr * ptr)) (st st' : state)
  : Prop :=
  match c with
  | call_init _ => destroyed st' = 0
  | call_deinit _ =>
      destroyed st = 0 /\ destroyed st' = 1 /\
      head st' = NULL /\ tail st' = NULL /\
      heap st' = free_all l.*1 (heap st)
  | _ => destroyed st' = destroyed st
  end.

(** A push on the empty queue during which [malloc] fails. *)
Definition first_node_not_allocated (c : call) : Prop :=
  match c with
  | call_push_front queue_addr _ m | call_push_back queue_addr _ m => m = NULL
  | _ => False
  end.

(** ** The reference deque *)

Module Deque.

Definition push_front (x : ptr) (d : list ptr) : list ptr := x :: d.
Definition push_back (x : ptr) (d : list ptr) : list ptr := d ++ [x].
Definition pop_front (d : list ptr) : option (ptr * list ptr) :=
  match d with
  | [] => None
  | x :: d' => Some (x, d')
  end.
Definition pop_back (d : list ptr) : option (ptr * list ptr) :=
  match last d with
  | None => None
  | Some x => Some (x, removelast d)
  end.

(** A call on the reference deque: its result and the deque after it.  A
    pop from the empty deque has no result: the caller waits. *)
Definition step (c : call) (d : list ptr) : option (result * list ptr) :=
  match c with
  | call_push_front _ x _ => Some (res_int EXIT_SUCCESS, push_front x d)
  | call_push_back _ x _ => Some (res_int EXIT_SUCCESS, push_back x d)
  | call_pop_front _ =>
      match pop_front d with
      | Some (x, d') => Some (res_ptr x, d')
      | None => None
      end
  | call_pop_back _ =>
      match pop_back d with
      | Some (x, d') => Some (res_ptr x, d')
      | None => None
      end
  | _ => None
  end.

(** The results of a sequence of calls, and the deque after it when every
    call returns. *)
Fixpoint run (cs : list call) (d : list ptr)
  : list result * option (list ptr) :=
  match cs with
  | [] => ([], Some d)
  | c :: cs' =>
      match step c d with
      | Some (r, d') => let (rs, o) := run cs' d' in (r :: rs, o)
      | None => ([], None)
      end
  end.

End Deque.

(** ** Concrete memories *)

(** What the blocks handed out by [malloc] hold in the examples. *)
Definition junk0 : node := Node 77 88 99.

(** The queue after [q_init]. *)
Definition empty_queue : state := State ∅ NULL NULL false 0 0.

(** A queue of two nodes: the node at 101 with payload 200, then the node at
    102 with payload 100. *)
Definition two_nodes : state :=
  State (<[101 := Node 200 NULL 102]> (<[102 := Node 100 101 NULL]> ∅))
        101 102 false 0 0.

(** The queue after [q_deinit]. *)
Definition dead_queue : state := State ∅ NULL NULL false 0 1.

(** The queue of two nodes while one reader is registered. *)
Definition two_nodes_reader : state := set_readers 1 two_nodes.

(** A queue struct that was never initialised: the fields hold what the
    memory held. *)
Definition stale_queue : state := State ∅ 5 6 false 3 1.

(** * Proofs *)

(** ** Arithmetic of [int] and truth values *)

Lemma truthy_true (z : Z) : z <> 0 -> truthy z = true.
Proof. unfold truthy. intros H. apply negb_true_iff, Z.eqb_neq, H. Qed.

Lemma wrap_int_id (z : Z) : int_range z -> wrap_int z = z.
Proof.
  unfold wrap_int, int_range. intros H.
  rewrite Z.mod_small; lia.
Qed.

Lemma wrap_int_incr_decr (z : Z) :
  int_range z -> wrap_int (wrap_int (z + 1) - 1) = z.
Proof.
  unfold int_range. intros H.
  destruct (Z.eq_dec z (2 ^ 31 - 1)) as [-> | Hne].
  - reflexivity.
  - rewrite (wrap_int_id (z + 1)) by (unfold int_range; lia).
    replace (z + 1 - 1) with z by lia.
    apply wrap_int_id. exact H.
Qed.

(** ** Chains *)

Section Chains.

Implicit Types (h : gmap Z node) (l : list (ptr * ptr)) (a p cur e : ptr).

Lemma default_last_cons (p a : ptr) (l : list ptr) :
  default p (last (a :: l)) = default a (last l).
Proof.
  destruct l as [| b bs]; [done |].
  rewrite last_cons_cons.
  destruct (last_is_Some (b :: bs)) as [_ [c ->]]; done.
Qed.

Lemma last_fst_snoc (l : list (ptr * ptr)) (a x : ptr) :
  last (l ++ [(a, x)]).*1 = Some a.
Proof. rewrite fmap_app. simpl. apply last_snoc. Qed.

Lemma dlseg_nil_inv h p l : dlseg h p l NULL NULL -> l = [].
Proof.
  destruct l as [| [a x] l]; [done |].
  intros (<- & Hne & _). done.
Qed.

Lemma dlseg_head_nonnull h p l cur :
  dlseg h p l cur NULL -> cur <> NULL -> exists a x l', l = (a, x) :: l'.
Proof.
  destruct l as [| [a x] l]; simpl; [congruence | eauto].
Qed.

(** Every node of a chain is a live block at a non-null address. *)
Lemma dlseg_live h p l cur e a :
  dlseg h p l cur e -> a ∈ l.*1 -> a <> NULL /\ is_Some (h !! a).
Proof.
  revert p cur. induction l as [| [b x] l IH]; intros p cur; simpl.
  - intros _ Hin. by apply elem_of_nil in Hin.
  - intros (-> & Hne & nx & Hb & Hl) Hin.
    apply elem_of_cons in Hin as [-> | Hin]; [eauto |].
    eapply IH; eauto.
Qed.

(** A chain does not depend on the blocks outside of it. *)
Lemma dlseg_insert h p l cur e a n :
  a ∉ l.*1 -> dlseg h p l cur e -> dlseg (<[a := n]> h) p l cur e.
Proof.
  revert p cur. induction l as [| [b x] l IH]; intros p cur; simpl; [done |].
  intros Hnin (-> & Hne & nx & Hb & Hl).
  apply not_elem_of_cons in Hnin as [Hab Hnin].
  split; [done |]. split; [done |]. exists nx. split.
  - by rewrite lookup_insert_ne.
  - by apply IH.
Qed.

Lemma dlseg_delete h p l cur e a :
  a ∉ l.*1 -> dlseg h p l cur e -> dlseg (delete a h) p l cur e.
Proof.
  revert p cur. induction l as [| [b x] l IH]; intros p cur; simpl; [done |].
  intros Hnin (-> & Hne & nx & Hb & Hl).
  apply not_elem_of_cons in Hnin as [Hab Hnin].
  split; [done |]. split; [done |]. exists nx. split.
  - by rewrite lookup_delete_ne.
  - by apply IH.
Qed.

(** A chain of two parts. *)
Lemma dlseg_app h p l1 l2 cur e :
  dlseg h p (l1 ++ l2) cur e <->
  exists mid, dlseg h p l1 cur mid /\
              dlseg h (default p (last l1.*1)) l2 mid e.
Proof.
  revert p cur. induction l1 as [| [a x] l1 IH]; intros p cur; simpl.
  - split.
    + intros H. exists cur. done.
    + intros (mid & -> & H). done.
  - rewrite default_last_cons. split.
    + intros (-> & Hne & nx & Ha & H).
      apply IH in H as (mid & H1 & H2).
      exists mid. eauto 10.
    + intros (mid & (-> & Hne & nx & Ha & H1) & H2).
      split; [done |]. split; [done |]. exists nx. split; [done |].
      apply IH. eauto.
Qed.

(** The chain from a pointer to the end of the list is determined by the
    storage. *)
Lemma dlseg_functional h p p' l l' cur :
  dlseg h p l cur NULL -> dlseg h p' l' cur NULL -> l = l'.
Proof.
  revert p p' l' cur. induction l as [| [a x] l IH]; intros p p' l' cur.
  - simpl. intros ->. intros H. symmetry. eapply dlseg_nil_inv; eauto.
  - intros (-> & Hne & nx & Ha & Hl).
    destruct l' as [| [a' x'] l']; simpl; [congruence |].
    intros (<- & _ & nx' & Ha' & Hl').
    rewrite Ha in Ha'. injection Ha' as <- <- <-.
    f_equal. eapply IH; eauto.
Qed.

(** A node occurs once in the list: the chain has no cycle. *)
Lemma dlseg_NoDup h p l cur : dlseg h p l cur NULL -> NoDup l.*1.
Proof.
  revert p cur. induction l as [| [a x] l IH]; intros p cur; simpl.
  - intros _. constructor.
  - intros (-> & Hne & nx & Ha & Hl). constructor; [| eauto].
    intros Hin.
    apply list_elem_of_fmap in Hin as ([a' y] & Heq & Hin). simpl in Heq.
    subst a'.
    apply list_elem_of_split in Hin as (l1 & l2 & ->).
    pose proof Hl as Hl'.
    apply dlseg_app in Hl' as (mid & _ & (-> & _ & nx' & Ha' & Hl2)).
    rewrite Ha in Ha'. injection Ha' as _ _ <-.
    pose proof (dlseg_functional _ _ _ _ _ _ Hl Hl2) as Heq.
    apply (f_equal length) in Heq.
    rewrite length_app in Heq. simpl in Heq. lia.
Qed.

(** The list is no longer than the storage has blocks. *)
Lemma dlseg_length h p l cur :
  dlseg h p l cur NULL -> (length l <= size h)%nat.
Proof.
  intros H.
  assert (Hsub : l.*1 ⊆+ elements (dom h)).
  { apply NoDup_submseteq; [eapply dlseg_NoDup; eauto |].
    intros a Hin. apply elem_of_elements, elem_of_dom.
    eapply dlseg_live; eauto. }
  apply submseteq_length in Hsub.
  rewrite length_fmap in Hsub.
  rewrite <- size_dom. exact Hsub.
Qed.

End Chains.

(** ** Running the code *)

(** Unfolds the monad and the fields, leaving truth values and the storage
    for rewriting. *)
Ltac unfold_code :=
  cbv beta iota zeta delta
    [bind ret get modify diverge
     set_heap set_head set_tail set_lock set_readers set_destroyed
     heap head tail lock readers destroyed
     load store malloc free with_object with_prev with_next
     object prev next
     pthread_mutex_lock pthread_mutex_unlock wait_while pthread_cond_broadcast
     read_lock read_unlock write_lock_push write_lock_pop write_unlock
     create_first_node q_init
     q_push_front q_push_front_locked q_push_back q_push_back_locked
     q_pop_front q_pop_front_locked q_pop_back q_pop_back_locked
     q_traverse q_traverse_locked q_deinit q_deinit_locked
     negb andb orb].

Ltac run_step :=
  first
    [ progress unfold_code
    | progress change (truthy 0) with false
    | progress change (truthy NULL) with false
    | progress change (truthy 1) with true
    | match goal with
      | H : ?z <> 0 |- context [truthy ?z] => rewrite (truthy_true z H)
      | H : ?z <> NULL |- context [truthy ?z] => rewrite (truthy_true z H)
      end
    | rewrite truthy_true by (assumption || congruence)
    | rewrite Z.eqb_refl
    | rewrite (proj2 (Z.eqb_neq _ _)) by (assumption || congruence)
    | rewrite lookup_insert_eq
    | rewrite lookup_delete_eq
    | rewrite lookup_insert_ne by (assumption || congruence)
    | rewrite lookup_delete_ne by (assumption || congruence)
    | rewrite insert_insert_eq
    | match goal with
      | H : ?h !! ?a = _ |- context [?h !! ?a] => rewrite H
      end ].

Ltac run_code := repeat run_step.

(** Reduces the fields of an explicit state. *)
Ltac fields := cbn [heap head tail lock readers destroyed] in *.

Section Loops.

Lemma traverse_loop_ok (fuel : nat) (st : state) p l cur :
  dlseg (heap st) p l cur NULL -> (length l <= fuel)%nat ->
  traverse_loop fuel cur st = Returns l.*2 st.
Proof.
  destruct st as [h hd tl lk r d]. simpl.
  revert fuel p cur. induction l as [| [a x] l IH]; intros fuel p cur.
  - simpl. intros -> _. by destruct fuel.
  - intros (-> & Hne & nx & Ha & Hl) Hlen.
    destruct fuel as [| fuel]; [simpl in Hlen; lia |].
    simpl in Hlen. simpl. run_code.
    rewrite (IH fuel a nx) by (done || lia). done.
Qed.

Lemma free_loop_ok (fuel : nat) (st : state) p l cur :
  dlseg (heap st) p l cur NULL -> (length l <= fuel)%nat ->
  free_loop fuel cur st = Returns tt (set_heap (free_all l.*1 (heap st)) st).
Proof.
  destruct st as [h hd tl lk r d]. simpl.
  revert fuel h p cur. induction l as [| [a x] l IH]; intros fuel h p cur.
  - simpl. intros -> _. by destruct fuel.
  - intros Hseg Hlen. pose proof (dlseg_NoDup _ _ _ _ Hseg) as Hnd.
    destruct Hseg as (-> & Hne & nx & Ha & Hl).
    apply NoDup_cons in Hnd as [Hnin _].
    destruct fuel as [| fuel]; [simpl in Hlen; lia |].
    simpl in Hlen. simpl. run_code.
    rewrite (IH fuel (delete a h) a nx).
    + done.
    + by apply dlseg_delete.
    + lia.
Qed.

End Loops.

(** ** The operations on a live queue *)


Section Operations.

Variable junk : node.

Lemma queue_repr_nil_inv h tl lk r d l :
  queue_repr (State h NULL tl lk r d) l -> l = [] /\ tl = NULL.
Proof.
  intros [Hseg Htl]. fields.
  apply dlseg_nil_inv in Hseg. subst l. done.
Qed.

Lemma q_push_front_locked_ok st l x m :
  queue_repr st l -> ready st ->
  x <> NULL -> m <> NULL -> heap st !! m = None ->
  exists st',
    q_push_front_locked junk x m st = Returns EXIT_SUCCESS st' /\
    queue_repr st' ((m, x) :: l) /\ ready st'.
Proof.
  destruct st as [h hd tl lk r d].
  intros Hrepr (Hlk & Hr & Hd) Hx Hm Hfresh. fields. subst lk r d.
  destruct (decide (hd = NULL)) as [-> | Hhd].
  - apply queue_repr_nil_inv in Hrepr as [-> ->].
    eexists. split; [run_code; reflexivity |].
    split; [| done]. split; simpl; [| done].
    split; [done |]. split; [done |]. exists NULL.
    by rewrite lookup_insert_eq.
  - destruct Hrepr as [Hseg Htl]. fields.
    pose proof (dlseg_NoDup _ _ _ _ Hseg) as Hnd.
    destruct (dlseg_head_nonnull _ _ _ _ Hseg Hhd) as (a & y & l' & ->).
    destruct Hseg as (-> & _ & nx & Ha & Hl). simpl in Hnd.
    apply NoDup_cons in Hnd as [Hnin _].
    assert (Hma : m <> a) by congruence.
    assert (Hml : m ∉ l'.*1).
    { intros Hin. eapply dlseg_live in Hin as [_ [? ?]]; [| exact Hl].
      congruence. }
    eexists. split; [run_code; reflexivity |].
    split; [| done]. split; simpl.
    + split; [done |]. split; [done |]. exists a. split.
      { by rewrite lookup_insert_ne, lookup_insert_eq by congruence. }
      split; [done |]. split; [done |]. exists nx. split.
      { by rewrite lookup_insert_eq. }
      by apply dlseg_insert, dlseg_insert.
    + rewrite Htl. simpl. by rewrite !default_last_cons.
Qed.

Lemma q_push_back_locked_ok st l x m :
  queue_repr st l -> ready st ->
  x <> NULL -> m <> NULL -> heap st !! m = None ->
  exists st',
    q_push_back_locked junk x m st = Returns EXIT_SUCCESS st' /\
    queue_repr st' (l ++ [(m, x)]) /\ ready st'.
Proof.
  destruct st as [h hd tl lk r d].
  intros Hrepr (Hlk & Hr & Hd) Hx Hm Hfresh. fields. subst lk r d.
  destruct Hrepr as [Hseg Htl]. fields.
  destruct l as [| [b z] l0 _] using rev_ind.
  - simpl in *. subst hd tl.
    eexists. split; [run_code; reflexivity |].
    split; [| done]. split; simpl; [| done].
    split; [done |]. split; [done |]. exists NULL.
    by rewrite lookup_insert_eq.
  - pose proof (dlseg_NoDup _ _ _ _ Hseg) as Hnd.
    rewrite fmap_app in Htl, Hnd. simpl in Htl, Hnd.
    rewrite last_snoc in Htl. simpl in Htl. subst tl.
    apply NoDup_app in Hnd as (_ & Hnin & _).
    apply dlseg_app in Hseg as (mid & Hl0 & (-> & Hb & nx & Hcell & ->)).
    assert (Hmb : m <> b) by congruence.
    assert (Hml : m ∉ l0.*1).
    { intros Hin. eapply dlseg_live in Hin as [_ [? ?]]; [| exact Hl0].
      congruence. }
    assert (Hbl : b ∉ l0.*1).
    { intros Hin. eapply Hnin; [exact Hin |]. apply list_elem_of_singleton.
      done. }
    eexists. split; [run_code; reflexivity |].
    split; [| done]. split; simpl.
    + apply dlseg_app. exists m. split.
      * apply dlseg_app. exists b. split.
        { by apply dlseg_insert, dlseg_insert. }
        simpl. split; [done |]. split; [done |]. exists m. split; [| done].
        by rewrite lookup_insert_eq.
      * rewrite last_fst_snoc. simpl.
        split; [done |]. split; [done |]. exists NULL. split; [| done].
        by rewrite lookup_insert_ne, lookup_insert_eq by congruence.
    + by rewrite last_fst_snoc.
Qed.

Lemma q_pop_front_locked_ok st a x l :
  queue_repr st ((a, x) :: l) -> ready st ->
  exists st',
    q_pop_front_locked st = Returns x st' /\
    queue_repr st' l /\ ready st' /\
    heap st' !! a = None.
Proof.
  destruct st as [h hd tl lk r d].
  intros [Hseg Htl] (Hlk & Hr & Hd). fields. subst lk r d.
  pose proof (dlseg_NoDup _ _ _ _ Hseg) as Hnd. simpl in Hnd.
  apply NoDup_cons in Hnd as [Hnin Hnd].
  destruct Hseg as (-> & Ha & nx & Hcell & Hl).
  destruct l as [| [b y] l].
  - simpl in *. subst nx tl.
    eexists. split; [run_code; reflexivity |].
    split; [done |]. split; [done |]. simpl. apply lookup_delete_eq.
  - destruct Hl as (-> & Hb & nn & Hcellb & Hl).
    simpl in Hnd. apply NoDup_cons in Hnd as [Hninb _].
    simpl in Hnin. apply not_elem_of_cons in Hnin as [Hab Hnin].
    rewrite fmap_cons, default_last_cons in Htl. simpl in Htl.
    assert (Hatl : a <> tl).
    { subst tl. rewrite default_last_cons.
      destruct (last _) as [c |] eqn:E; simpl; [| done].
      intros ->. apply Hnin. apply last_Some_elem_of in E. done. }
    eexists. split; [run_code; reflexivity |].
    split; [| split; [done |]].
    + split; simpl.
      * split; [done |]. split; [done |]. exists nn. split.
        { by rewrite lookup_insert_eq. }
        by apply dlseg_insert, dlseg_delete.
      * by rewrite Htl, !default_last_cons.
    + simpl. rewrite lookup_insert_ne by congruence. apply lookup_delete_eq.
Qed.

Lemma q_pop_back_locked_ok st a x l :
  queue_repr st (l ++ [(a, x)]) -> ready st ->
  exists st',
    q_pop_back_locked st = Returns x st' /\
    queue_repr st' l /\ ready st' /\
    heap st' !! a = None.
Proof.
  destruct st as [h hd tl lk r d].
  intros [Hseg Htl] (Hlk & Hr & Hd). fields. subst lk r d.
  pose proof (dlseg_NoDup _ _ _ _ Hseg) as Hnd.
  rewrite fmap_app in Htl, Hnd. simpl in Htl, Hnd.
  rewrite last_snoc in Htl. simpl in Htl. subst tl.
  apply NoDup_app in Hnd as (Hnd & Hnin & _).
  assert (Hal : a ∉ l.*1).
  { intros Hin. eapply Hnin; [exact Hin |]. by apply list_elem_of_singleton. }
  apply dlseg_app in Hseg as (mid & Hl & (-> & Ha & nx & Hcell & ->)).
  destruct l as [| [b y] l0 _] using rev_ind.
  - simpl in *. subst hd.
    eexists. split; [run_code; reflexivity |].
    split; [done |]. split; [done |]. simpl. apply lookup_delete_eq.
  - rewrite fmap_app in Hcell, Hnd, Hal. simpl in Hcell, Hnd, Hal.
    rewrite last_snoc in Hcell. simpl in Hcell.
    apply NoDup_app in Hnd as (_ & Hnin0 & _).
    assert (Hbl : b ∉ l0.*1).
    { intros Hin. eapply Hnin0; [exact Hin |].
      by apply list_elem_of_singleton. }
    apply not_elem_of_app in Hal as [Hal0 Hab].
    apply not_elem_of_cons in Hab as [Hab _].
    assert (hd <> a /\ hd <> NULL) as [Hhd Hhd0].
    { destruct l0 as [| [c z] l0].
      - simpl in Hl. destruct Hl as (-> & ? & _). split; congruence.
      - simpl in Hl. destruct Hl as (-> & ? & _). split; [| done].
        intros ->. apply Hal0. simpl. apply elem_of_cons. by left. }
    apply dlseg_app in Hl as (mid & Hl0 & (-> & Hb & nb & Hcellb & ->)).
    eexists. split; [run_code; reflexivity |].
    split; [| split; [done |]].
    + split; simpl.
      * apply dlseg_app. exists b. split.
        { by apply dlseg_insert, dlseg_delete. }
        simpl. split; [done |]. split; [done |]. exists NULL. split; [| done].
        by rewrite lookup_insert_eq.
      * by rewrite last_fst_snoc.
    + simpl. rewrite lookup_insert_ne by congruence. apply lookup_delete_eq.
Qed.

End Operations.

(** ** The operations in any state *)

Section Cases.

Variable junk : node.

Lemma ready_intro h hd tl : ready (State h hd tl false 0 0).
Proof. done. Qed.

(** Splits on the mutex, the destroyed flag and the reader count of the
    state, and leaves the case of a ready state. *)
Ltac sync_cases st :=
  let h := fresh "h" in let hd := fresh "hd" in let tl := fresh "tl" in
  let lk := fresh "lk" in let r := fresh "r" in let d := fresh "d" in
  destruct st as [h hd tl lk r d]; fields;
  destruct lk;
  [ | destruct (decide (d = 0)) as [-> | ?];
      [ destruct (decide (r = 0)) as [-> | ?] | ] ].

Lemma q_push_front_locked_cases st l x m :
  queue_repr st l -> malloc_answer st m -> x <> NULL ->
  let o := q_push_front_locked junk x m st in
  o = Returns EXIT_FAILURE st \/
  o = Blocks st \/
  (o = Faults /\ l = [] /\ m = NULL /\ ready st) \/
  exists st',
    o = Returns EXIT_SUCCESS st' /\
    queue_repr st' ((m, x) :: l) /\ ready st /\ ready st'.
Proof.
  intros Hrepr Hm Hx o. subst o. unfold malloc_answer in Hm.
  sync_cases st.
  - right. left. by run_code.
  - destruct (decide (m = NULL)) as [-> | Hm0].
    + destruct (decide (hd = NULL)) as [-> | Hhd].
      * right. right. left.
        apply queue_repr_nil_inv in Hrepr as [-> ->]. by run_code.
      * left. by run_code.
    + destruct Hm as [? | Hm]; [done |].
      right. right. right.
      destruct (q_push_front_locked_ok junk _ l x m Hrepr
                  (ready_intro _ _ _) Hx Hm0 Hm) as (st' & Hrun & Hr' & Hrd).
      exists st'. auto using ready_intro.
  - right. left. by run_code.
  - left. run_code. destruct (truthy r); by run_code.
Qed.

Lemma q_push_back_locked_cases st l x m :
  queue_repr st l -> malloc_answer st m -> x <> NULL ->
  let o := q_push_back_locked junk x m st in
  o = Returns EXIT_FAILURE st \/
  o = Blocks st \/
  (o = Faults /\ l = [] /\ m = NULL /\ ready st) \/
  exists st',
    o = Returns EXIT_SUCCESS st' /\
    queue_repr st' (l ++ [(m, x)]) /\ ready st /\ ready st'.
Proof.
  intros Hrepr Hm Hx o. subst o. unfold malloc_answer in Hm.
  sync_cases st.
  - right. left. by run_code.
  - destruct (decide (m = NULL)) as [-> | Hm0].
    + destruct (decide (hd = NULL)) as [-> | Hhd].
      * right. right. left.
        apply queue_repr_nil_inv in Hrepr as [-> ->]. by run_code.
      * left.
        assert (Htl : tl <> NULL).
        { destruct Hrepr as [Hseg Htl]. fields.
          destruct (dlseg_head_nonnull _ _ _ _ Hseg Hhd) as (a & y & l' & ->).
          subst tl.
          destruct (last_is_Some ((a, y) :: l').*1) as [_ [c Hc]]; [done |].
          rewrite Hc. simpl. apply last_Some_elem_of in Hc.
          eapply dlseg_live in Hc; [| exact Hseg]. tauto. }
        by run_code.
    + destruct Hm as [? | Hm]; [done |].
      right. right. right.
      destruct (q_push_back_locked_ok junk _ l x m Hrepr
                  (ready_intro _ _ _) Hx Hm0 Hm) as (st' & Hrun & Hr' & Hrd).
      exists st'. auto using ready_intro.
  - right. left. by run_code.
  - left. run_code. destruct (truthy r); by run_code.
Qed.

Lemma q_pop_front_locked_cases st l :
  queue_repr st l ->
  let o := q_pop_front_locked st in
  (o = Returns NULL st /\ destroyed st <> 0) \/
  o = Blocks st \/
  exists st' a x l',
    o = Returns x st' /\ l = (a, x) :: l' /\
    queue_repr st' l' /\ ready st /\ ready st' /\ heap st' !! a = None.
Proof.
  intros Hrepr o. subst o.
  sync_cases st.
  - right. left. by run_code.
  - destruct l as [| [a x] l'].
    + right. left. destruct Hrepr as [Hseg _]. fields. simpl in Hseg. subst hd.
      by run_code.
    + right. right.
      destruct (q_pop_front_locked_ok _ a x l' Hrepr (ready_intro _ _ _))
        as (st' & Hrun & Hr' & Hrd & Hfreed).
      exists st', a, x, l'. auto 10 using ready_intro.
  - right. left. destruct (decide (hd = NULL)) as [-> | Hhd]; by run_code.
  - left. run_code. destruct (truthy hd), (truthy r); by run_code.
Qed.

Lemma q_pop_back_locked_cases st l :
  queue_repr st l ->
  let o := q_pop_back_locked st in
  (o = Returns NULL st /\ destroyed st <> 0) \/
  o = Blocks st \/
  exists st' a x l',
    o = Returns x st' /\ l = l' ++ [(a, x)] /\
    queue_repr st' l' /\ ready st /\ ready st' /\ heap st' !! a = None.
Proof.
  intros Hrepr o. subst o.
  sync_cases st.
  - right. left. by run_code.
  - destruct l as [| [a x] l' _] using rev_ind.
    + right. left. destruct Hrepr as [Hseg _]. fields. simpl in Hseg. subst hd.
      by run_code.
    + right. right.
      destruct (q_pop_back_locked_ok _ a x l' Hrepr (ready_intro _ _ _))
        as (st' & Hrun & Hr' & Hrd & Hfreed).
      exists st', a, x, l'. auto 10 using ready_intro.
  - right. left. destruct (decide (hd = NULL)) as [-> | Hhd]; by run_code.
  - left. run_code. destruct (truthy hd), (truthy r); by run_code.
Qed.

End Cases.

Section Entry.

Variable junk : node.

Lemma q_traverse_locked_ok st l :
  queue_repr st l -> l <> [] -> lock st = false -> destroyed st = 0 ->
  q_traverse_locked st =
    Returns (EXIT_SUCCESS, l.*2)
      (set_readers (wrap_int (wrap_int (readers st + 1) - 1)) st).
Proof.
  intros Hrepr Hl Hlk Hd.
  destruct st as [h hd tl lk r d]. fields. subst.
  destruct Hrepr as [Hseg _]. fields.
  pose proof (dlseg_length _ _ _ _ Hseg) as Hlen.
  assert (Hhd : hd <> NULL).
  { destruct l as [| [a x] l]; [done |]. by destruct Hseg as (-> & ? & _). }
  run_code.
  rewrite (traverse_loop_ok (size h) (State h hd tl false _ 0)
             NULL l hd Hseg Hlen).
  run_code. by destruct (_ =? 0); run_code.
Qed.

Lemma q_traverse_locked_destroyed st :
  lock st = false -> destroyed st <> 0 ->
  q_traverse_locked st =
    Returns (EXIT_FAILURE, [])
      (set_readers (wrap_int (wrap_int (readers st + 1) - 1)) st).
Proof.
  intros Hlk Hd. destruct st as [h hd tl lk r d]. fields. subst.
  run_code. destruct (truthy hd); run_code; by destruct (_ =? 0); run_code.
Qed.

Lemma q_traverse_locked_cases st l :
  queue_repr st l ->
  let o := q_traverse_locked st in
  o = Blocks st \/
  exists res,
    o = Returns res
          (set_readers (wrap_int (wrap_int (readers st + 1) - 1)) st) /\
    lock st = false /\
    ((destroyed st <> 0 /\ res = (EXIT_FAILURE, [])) \/
     (destroyed st = 0 /\ l <> [] /\ res = (EXIT_SUCCESS, l.*2))).
Proof.
  intros Hrepr o. subst o.
  destruct (lock st) eqn:Hlk.
  { left. destruct st. fields. subst. by run_code. }
  destruct (decide (destroyed st = 0)) as [Hd | Hd].
  - destruct (decide (l = [])) as [-> | Hl].
    + left. destruct Hrepr as [Hseg _]. destruct st. fields. simpl in Hseg.
      subst. by run_code.
    + right. exists (EXIT_SUCCESS, l.*2).
      rewrite (q_traverse_locked_ok st l) by done. by auto 10.
  - right. exists (EXIT_FAILURE, []).
    rewrite (q_traverse_locked_destroyed st) by done. by auto.
Qed.

Lemma q_deinit_locked_ok st l :
  queue_repr st l -> ready st ->
  q_deinit_locked st =
    Returns tt (State (free_all l.*1 (heap st)) NULL NULL false 0 1).
Proof.
  intros [Hseg _] (Hlk & Hr & Hd).
  destruct st as [h hd tl lk r d]. fields. subst.
  pose proof (dlseg_length _ _ _ _ Hseg) as Hlen.
  run_code.
  rewrite (free_loop_ok (size h) (State h hd tl true 0 0)
             NULL l hd Hseg Hlen).
  by run_code.
Qed.

Lemma q_deinit_locked_cases st l :
  queue_repr st l ->
  let o := q_deinit_locked st in
  (o = Returns tt st /\ destroyed st <> 0) \/
  o = Blocks st \/
  (ready st /\
   o = Returns tt (State (free_all l.*1 (heap st)) NULL NULL false 0 1)).
Proof.
  intros Hrepr o. subst o.
  destruct (lock st) eqn:Hlk.
  { right. left. destruct st. fields. subst. by run_code. }
  destruct (decide (destroyed st = 0)) as [Hd | Hd].
  - destruct (decide (readers st = 0)) as [Hr | Hr].
    + right. right. split; [done |]. by apply q_deinit_locked_ok.
    + right. left. destruct st. fields. subst. by run_code.
  - left. destruct st as [h hd tl lk r d]. fields. subst.
    run_code. destruct (truthy r); by run_code.
Qed.

(** A destroyed queue, seen at the entry of a function. *)
Lemma destroyed_at_entry st x m f :
  destroyed st <> 0 ->
  q_push_front junk queue_addr x m st = Returns EXIT_FAILURE st /\
  q_push_back junk queue_addr x m st = Returns EXIT_FAILURE st /\
  q_pop_front queue_addr st = Returns NULL st /\
  q_pop_back queue_addr st = Returns NULL st /\
  q_traverse queue_addr f st = Returns (EXIT_FAILURE, []) st /\
  q_deinit queue_addr st = Returns tt st.
Proof.
  intros Hd. destruct st as [h hd tl lk r d]. fields.
  repeat split; run_code; try done.
  - destruct (truthy x); by run_code.
  - destruct (truthy x); by run_code.
  - destruct f; by run_code.
Qed.

(** The same for the functions that allocate nothing. *)
Lemma destroyed_at_entry_deinit st :
  destroyed st <> 0 -> q_deinit queue_addr st = Returns tt st.
Proof. intros Hd. destruct st. fields. by run_code. Qed.

Lemma live_at_entry_reader st :
  destroyed st = 0 ->
  q_traverse queue_addr callback_fn st = q_traverse_locked st /\
  q_deinit queue_addr st = q_deinit_locked st.
Proof.
  intros Hd. destruct st as [h hd tl lk r d]. fields. subst d.
  split; unfold q_traverse, q_deinit, bind, get; run_code; done.
Qed.

(** A live queue: the entry checks pass. *)
Lemma live_at_entry st x m :
  destroyed st = 0 ->
  (x <> NULL ->
   q_push_front junk queue_addr x m st = q_push_front_locked junk x m st /\
   q_push_back junk queue_addr x m st = q_push_back_locked junk x m st) /\
  q_pop_front queue_addr st = q_pop_front_locked st /\
  q_pop_back queue_addr st = q_pop_back_locked st /\
  q_traverse queue_addr callback_fn st = q_traverse_locked st /\
  q_deinit queue_addr st = q_deinit_locked st.
Proof.
  intros Hd. destruct st as [h hd tl lk r d]. fields. subst d.
  repeat split;
    unfold q_push_front, q_push_back, q_pop_front, q_pop_back, q_traverse,
      q_deinit, bind, get; run_code; done.
Qed.

End Entry.

(** ** Every call, in every state *)

Section Calls.

Variable junk : node.

Lemma queue_repr_set_readers st l r :
  queue_repr st l -> queue_repr (set_readers r st) l.
Proof. by destruct st. Qed.

Lemma exec_cases c st l :
  queue_repr st l -> call_malloc_answer st c ->
  match exec junk c st with
  | Returns r st' =>
      st' = st \/
      exists l', queue_repr st' l' /\ list_after c l l' /\ flag_after c l st st'
  | Blocks st' => st' = st
  | Faults => l = [] /\ first_node_not_allocated c /\ ready st
  | Diverges => False
  end.
Proof.
  intros Hrepr Hm.
  destruct c as [q | q x m | q x m | q | q | q f | q]; simpl in Hm;
    (destruct q; [by left |]); unfold exec, bind, ret.
  - (* q_init *)
    right. exists []. destruct st as [h hd tl lk r d]. by run_code.
  - (* q_push_front *)
    destruct (decide (x = NULL)) as [-> | Hx].
    { destruct st. run_code. by left. }
    destruct (decide (destroyed st = 0)) as [Hd | Hd].
    2: { destruct (destroyed_at_entry junk st x m callback_fn Hd) as (-> & _).
         by left. }
    destruct (live_at_entry junk st x m Hd) as [Hpush _].
    destruct (Hpush Hx) as [-> _].
    destruct (q_push_front_locked_cases junk st l x m Hrepr Hm Hx)
      as [-> | [-> | [(-> & ? & ? & ?) | (st' & -> & Hr' & Hrd & Hrd')]]];
      [by left | done | done |].
    right. exists ((m, x) :: l). split; [done |]. split; [done |]. simpl.
    destruct Hrd as (_ & _ & ->), Hrd' as (_ & _ & ->). done.
  - (* q_push_back *)
    destruct (decide (x = NULL)) as [-> | Hx].
    { destruct st. run_code. by left. }
    destruct (decide (destroyed st = 0)) as [Hd | Hd].
    2: { destruct (destroyed_at_entry junk st x m callback_fn Hd)
           as (_ & -> & _).
         by left. }
    destruct (live_at_entry junk st x m Hd) as [Hpush _].
    destruct (Hpush Hx) as [_ ->].
    destruct (q_push_back_locked_cases junk st l x m Hrepr Hm Hx)
      as [-> | [-> | [(-> & ? & ? & ?) | (st' & -> & Hr' & Hrd & Hrd')]]];
      [by left | done | done |].
    right. exists (l ++ [(m, x)]). split; [done |]. split; [done |]. simpl.
    destruct Hrd as (_ & _ & ->), Hrd' as (_ & _ & ->). done.
  - (* q_pop_front *)
    destruct (decide (destroyed st = 0)) as [Hd | Hd].
    2: { destruct (destroyed_at_entry junk st 0 0 callback_fn Hd)
           as (_ & _ & -> & _).
         by left. }
    destruct (live_at_entry junk st 0 0 Hd) as (_ & -> & _).
    destruct (q_pop_front_locked_cases st l Hrepr)
      as [[-> _] | [-> | (st' & a & x & l' & -> & -> & Hr' & Hrd & Hrd' & _)]];
      [by left | done |].
    right. exists l'. split; [done |]. split; [simpl; eauto |]. simpl.
    destruct Hrd as (_ & _ & ->), Hrd' as (_ & _ & ->). done.
  - (* q_pop_back *)
    destruct (decide (destroyed st = 0)) as [Hd | Hd].
    2: { destruct (destroyed_at_entry junk st 0 0 callback_fn Hd)
           as (_ & _ & _ & -> & _).
         by left. }
    destruct (live_at_entry junk st 0 0 Hd) as (_ & _ & -> & _).
    destruct (q_pop_back_locked_cases st l Hrepr)
      as [[-> _] | [-> | (st' & a & x & l' & -> & -> & Hr' & Hrd & Hrd' & _)]];
      [by left | done |].
    right. exists l'. split; [done |]. split; [simpl; eauto |]. simpl.
    destruct Hrd as (_ & _ & ->), Hrd' as (_ & _ & ->). done.
  - (* q_traverse *)
    destruct f; [by left |].
    destruct (decide (destroyed st = 0)) as [Hd | Hd].
    2: { destruct (destroyed_at_entry junk st 0 0 callback_fn Hd)
           as (_ & _ & _ & _ & -> & _).
         by left. }
    destruct (live_at_entry junk st 0 0 Hd) as (_ & _ & _ & -> & _).
    destruct (q_traverse_locked_cases st l Hrepr)
      as [-> | (res & -> & _ & _)]; [done |].
    right. exists l. split; [by apply queue_repr_set_readers |].
    split; [done |]. by destruct st.
  - (* q_deinit *)
    destruct (decide (destroyed st = 0)) as [Hd | Hd].
    2: { destruct (destroyed_at_entry junk st 0 0 callback_fn Hd)
           as (_ & _ & _ & _ & _ & ->).
         by left. }
    destruct (live_at_entry junk st 0 0 Hd) as (_ & _ & _ & _ & ->).
    destruct (q_deinit_locked_cases st l Hrepr)
      as [[-> _] | [-> | [_ ->]]]; [by left | done |].
    right. exists []. done.
Qed.

End Calls.

(** * The claims *)

Section Claims.

Variable junk : node.

Lemma exec_push_front_ready st l q x m :
  queue_repr st l -> ready st ->
  deque_call (call_push_front q x m) -> m <> NULL -> heap st !! m = None ->
  exists st',
    exec junk (call_push_front q x m) st = Returns (res_int EXIT_SUCCESS) st' /\
    queue_repr st' ((m, x) :: l) /\ ready st'.
Proof.
  intros Hrepr Hrd Hc Hm Hfresh. destruct q; [done |]. simpl in Hc.
  destruct (q_push_front_locked_ok junk st l x m Hrepr Hrd Hc Hm Hfresh)
    as (st' & Hrun & Hr' & Hrd').
  exists st'. split; [| done]. unfold exec, bind.
  destruct (live_at_entry junk st x m (proj2 (proj2 Hrd))) as [Hpush _].
  destruct (Hpush Hc) as [-> _]. by rewrite Hrun.
Qed.

Lemma exec_push_back_ready st l q x m :
  queue_repr st l -> ready st ->
  deque_call (call_push_back q x m) -> m <> NULL -> heap st !! m = None ->
  exists st',
    exec junk (call_push_back q x m) st = Returns (res_int EXIT_SUCCESS) st' /\
    queue_repr st' (l ++ [(m, x)]) /\ ready st'.
Proof.
  intros Hrepr Hrd Hc Hm Hfresh. destruct q; [done |]. simpl in Hc.
  destruct (q_push_back_locked_ok junk st l x m Hrepr Hrd Hc Hm Hfresh)
    as (st' & Hrun & Hr' & Hrd').
  exists st'. split; [| done]. unfold exec, bind.
  destruct (live_at_entry junk st x m (proj2 (proj2 Hrd))) as [Hpush _].
  destruct (Hpush Hc) as [_ ->]. by rewrite Hrun.
Qed.

Lemma queue_repr_nonempty st l :
  queue_repr st l -> l <> [] -> head st <> NULL /\ tail st <> NULL.
Proof.
  intros [Hseg Htl] Hl.
  destruct l as [| [a x] l]; [done |]. split.
  - destruct Hseg as (-> & ? & _). done.
  - rewrite Htl.
    destruct (last_is_Some ((a, x) :: l).*1) as [_ [c Hc]]; [done |].
    rewrite Hc. simpl. apply last_Some_elem_of in Hc.
    eapply dlseg_live in Hc; [| exact Hseg]. tauto.
Qed.

(** A pop from the empty queue waits. *)
Lemma exec_pop_empty st :
  queue_repr st [] -> ready st ->
  exec junk (call_pop_front queue_addr) st = Blocks st /\
  exec junk (call_pop_back queue_addr) st = Blocks st.
Proof.
  intros [Hseg _] (Hlk & Hr & Hd).
  destruct st as [h hd tl lk r d]. fields. simpl in Hseg. subst.
  split; unfold exec; by run_code.
Qed.

Lemma exec_pop_front_ready st a x l :
  queue_repr st ((a, x) :: l) -> ready st ->
  exists st',
    exec junk (call_pop_front queue_addr) st = Returns (res_ptr x) st' /\
    queue_repr st' l /\ ready st'.
Proof.
  intros Hrepr Hrd.
  destruct (q_pop_front_locked_ok st a x l Hrepr Hrd)
    as (st' & Hrun & Hr' & Hrd' & _).
  exists st'. split; [| done]. unfold exec, bind.
  destruct (live_at_entry junk st 0 0 (proj2 (proj2 Hrd))) as (_ & -> & _).
  by rewrite Hrun.
Qed.

Lemma exec_pop_back_ready st a x l :
  queue_repr st (l ++ [(a, x)]) -> ready st ->
  exists st',
    exec junk (call_pop_back queue_addr) st = Returns (res_ptr x) st' /\
    queue_repr st' l /\ ready st'.
Proof.
  intros Hrepr Hrd.
  destruct (q_pop_back_locked_ok st a x l Hrepr Hrd)
    as (st' & Hrun & Hr' & Hrd' & _).
  exists st'. split; [| done]. unfold exec, bind.
  destruct (live_at_entry junk st 0 0 (proj2 (proj2 Hrd))) as (_ & _ & -> & _).
  by rewrite Hrun.
Qed.

Lemma run_cons c cs st :
  run junk (c :: cs) st =
  match exec junk c st with
  | Returns r st' => let (rs, o) := run junk cs st' in (r :: rs, o)
  | Blocks st' => ([], Blocks st')
  | Faults => ([], Faults)
  | Diverges => ([], Diverges)
  end.
Proof. reflexivity. Qed.

Lemma deque_run_cons c cs d :
  Deque.run (c :: cs) d =
  match Deque.step c d with
  | Some (r, d') => let (rs, o) := Deque.run cs d' in (r :: rs, o)
  | None => ([], None)
  end.
Proof. reflexivity. Qed.

Lemma free_all_freed (l : list ptr) (h : gmap Z node) (a : ptr) :
  a ∈ l -> free_all l h !! a = None.
Proof.
  unfold free_all. revert h. induction l as [| b l IH]; intros h Hin.
  - by apply elem_of_nil in Hin.
  - simpl. destruct (decide (a ∈ l)) as [Hl | Hl]; [by apply IH |].
    apply elem_of_cons in Hin as [-> | ?]; [| done].
    clear IH. revert h. induction l as [| c l IH]; intros h; simpl.
    + apply lookup_delete_eq.
    + apply not_elem_of_cons in Hl as [Hbc Hl].
      rewrite delete_delete. by apply IH.
Qed.

Lemma free_all_other (l : list ptr) (h : gmap Z node) (a : ptr) :
  a ∉ l -> free_all l h !! a = h !! a.
Proof.
  unfold free_all. revert h. induction l as [| b l IH]; intros h Hnin.
  - done.
  - apply not_elem_of_cons in Hnin as [Hab Hnin]. simpl.
    rewrite IH by done. by apply lookup_delete_ne.
Qed.

(** C1.  On one thread, on an initialised queue that is not destroyed, a
    sequence of q_push_front, q_push_back, q_pop_front and q_pop_back calls
    has the results of the same calls on a list used as a deque: a pop on the
    empty queue waits, where the deque has nothing to give, and the calls
    before it have the deque's results; when every call returns the queue
    holds the payloads of the deque, in its order. *)
Theorem deque_simulation (cs : list call) (st : state) (l : list (ptr * ptr)) :
  queue_repr st l -> ready st ->
  Forall deque_call cs ->
  allocations_succeed junk cs st ->
  (run junk cs st).1 = (Deque.run cs l.*2).1 /\
  match (run junk cs st).2, (Deque.run cs l.*2).2 with
  | Returns _ st', Some d =>
      exists l', queue_repr st' l' /\ l'.*2 = d /\ ready st'
  | Blocks st', None => queue_repr st' [] /\ ready st'
  | _, _ => False
  end.
Proof.
  revert st l. induction cs as [| c cs IH]; intros st l Hrepr Hrd Hcs Halloc.
  - simpl. eauto.
  - apply Forall_cons in Hcs as [Hc Hcs].
    destruct Halloc as [Hm Halloc].
    assert (Hstep : forall r st' l',
      exec junk c st = Returns r st' ->
      Deque.step c l.*2 = Some (r, l'.*2) ->
      queue_repr st' l' -> ready st' ->
      (run junk (c :: cs) st).1 = (Deque.run (c :: cs) l.*2).1 /\
      match (run junk (c :: cs) st).2, (Deque.run (c :: cs) l.*2).2 with
      | Returns _ st', Some d =>
          exists l', queue_repr st' l' /\ l'.*2 = d /\ ready st'
      | Blocks st', None => queue_repr st' [] /\ ready st'
      | _, _ => False
      end).
    { intros r st' l' Hexec Hdeque Hr' Hrd'.
      rewrite Hexec in Halloc.
      specialize (IH st' l' Hr' Hrd' Hcs Halloc).
      rewrite run_cons, deque_run_cons, Hexec, Hdeque.
      destruct (run junk cs st') as [rs o], (Deque.run cs l'.*2) as [rs' o'].
      simpl in *. destruct IH as [-> IH]. split; [done |].
      destruct o, o'; done. }
    destruct c as [q | q x m | q x m | q | q | q f | q]; try done.
    + destruct Hm as [Hm Hfresh].
      destruct (exec_push_front_ready st l q x m Hrepr Hrd Hc Hm Hfresh)
        as (st' & Hexec & Hr' & Hrd').
      by apply (Hstep (res_int EXIT_SUCCESS) st' ((m, x) :: l)).
    + destruct Hm as [Hm Hfresh].
      destruct (exec_push_back_ready st l q x m Hrepr Hrd Hc Hm Hfresh)
        as (st' & Hexec & Hr' & Hrd').
      apply (Hstep (res_int EXIT_SUCCESS) st' (l ++ [(m, x)])); try done.
      simpl. unfold Deque.push_back. by rewrite fmap_app.
    + destruct q; [done |].
      destruct l as [| [a x] l].
      * destruct (exec_pop_empty st Hrepr Hrd) as [Hexec _].
        rewrite run_cons, deque_run_cons, Hexec. simpl. auto.
      * destruct (exec_pop_front_ready st a x l Hrepr Hrd)
          as (st' & Hexec & Hr' & Hrd').
        by apply (Hstep (res_ptr x) st' l).
    + destruct q; [done |].
      destruct l as [| [a x] l _] using rev_ind.
      * destruct (exec_pop_empty st Hrepr Hrd) as [_ Hexec].
        rewrite run_cons, deque_run_cons, Hexec. simpl. auto.
      * destruct (exec_pop_back_ready st a x l Hrepr Hrd)
          as (st' & Hexec & Hr' & Hrd').
        apply (Hstep (res_ptr x) st' l); try done.
        simpl. unfold Deque.pop_back. rewrite fmap_app. simpl.
        by rewrite last_snoc, removelast_last.
Qed.

(** C2.  When [malloc] fails during a push, the push on a queue that holds
    a node returns failure and leaves the memory as it was; the push on the
    empty queue writes through the null pointer in [create_first_node]. *)
Theorem allocation_failure (st : state) (l : list (ptr * ptr)) (x : ptr) :
  queue_repr st l -> ready st -> x <> NULL ->
  (l <> [] ->
   q_push_front junk queue_addr x NULL st = Returns EXIT_FAILURE st /\
   q_push_back junk queue_addr x NULL st = Returns EXIT_FAILURE st) /\
  (l = [] ->
   q_push_front junk queue_addr x NULL st = Faults /\
   q_push_back junk queue_addr x NULL st = Faults).
Proof.
  intros Hrepr (Hlk & Hr & Hd) Hx.
  split; intros Hl.
  - destruct (queue_repr_nonempty st l Hrepr Hl) as [Hhd Htl].
    destruct st as [h hd tl lk r d]. fields. subst.
    split; by run_code.
  - subst l. destruct st as [h hd tl lk r d]. fields. subst.
    destruct Hrepr as [Hseg Htl]. fields. simpl in Hseg, Htl. subst.
    split; by run_code.
Qed.

(** C3.  On a destroyed queue every operation fails and leaves the memory
    as it was: the pushes return failure, the pops return NULL, q_traverse
    returns failure and calls nothing.  This holds when the flag is set at
    the call, and when a waiter is woken with the flag set (the function from
    its lock acquisition on, with the mutex free and a reader count in the
    range of [int]). *)
Theorem destroyed_queue_fails (st : state) (x m : ptr) (f : callback) :
  destroyed st <> 0 ->
  (q_push_front junk queue_addr x m st = Returns EXIT_FAILURE st /\
   q_push_back junk queue_addr x m st = Returns EXIT_FAILURE st /\
   q_pop_front queue_addr st = Returns NULL st /\
   q_pop_back queue_addr st = Returns NULL st /\
   q_traverse queue_addr f st = Returns (EXIT_FAILURE, []) st) /\
  (lock st = false -> int_range (readers st) ->
   q_push_front_locked junk x m st = Returns EXIT_FAILURE st /\
   q_push_back_locked junk x m st = Returns EXIT_FAILURE st /\
   q_pop_front_locked st = Returns NULL st /\
   q_pop_back_locked st = Returns NULL st /\
   q_traverse_locked st = Returns (EXIT_FAILURE, []) st).
Proof.
  intros Hd. split.
  - destruct (destroyed_at_entry junk st x m f Hd) as (? & ? & ? & ? & ? & _).
    done.
  - intros Hlk Hr. destruct st as [h hd tl lk r d]. fields. subst lk.
    repeat split; run_code.
    + destruct (truthy r); by run_code.
    + destruct (truthy r); by run_code.
    + destruct (truthy hd), (truthy r); by run_code.
    + destruct (truthy hd), (truthy r); by run_code.
    + destruct (truthy hd); run_code; rewrite wrap_int_incr_decr by done;
        by destruct (r =? 0); run_code.
Qed.

(** C5, as the code has it.  On an empty queue that is not destroyed
    q_traverse waits in read_lock: it calls nothing and leaves the memory as
    it was, reader count included.  The wait ends when the waiter is woken
    on a queue that holds a node or is destroyed. *)
Theorem traverse_waits_on_empty (st : state) :
  head st = NULL -> destroyed st = 0 ->
  q_traverse queue_addr callback_fn st = Blocks st /\
  q_traverse_locked st = Blocks st /\
  (forall st' l,
     queue_repr st' l -> lock st' = false ->
     l <> [] \/ destroyed st' <> 0 ->
     exists res st'', q_traverse_locked st' = Returns res st'').
Proof.
  intros Hhd Hd. split; [| split].
  - destruct st as [h hd tl lk r d]. fields. subst.
    destruct lk; by run_code.
  - destruct st as [h hd tl lk r d]. fields. subst.
    destruct lk; by run_code.
  - intros st' l Hrepr Hlk Hwake.
    destruct (decide (destroyed st' = 0)) as [Hd' | Hd'].
    + destruct Hwake as [Hl | ?]; [| done].
      rewrite (q_traverse_locked_ok st' l) by done. eauto.
    + rewrite (q_traverse_locked_destroyed st') by done. eauto.
Qed.

(** C7.  On a queue that is not destroyed and has no reader, q_deinit frees
    the nodes of the list and nothing else, sets head and tail to NULL and
    sets the destroyed flag.  The storage after the call is the storage
    before it without the nodes: no other block, so no payload, is freed or
    written. *)
Theorem deinit_frees_nodes (st : state) (l : list (ptr * ptr)) :
  queue_repr st l -> ready st ->
  q_deinit queue_addr st =
    Returns tt (State (free_all l.*1 (heap st)) NULL NULL false 0 1) /\
  (forall a, a ∈ l.*1 -> free_all l.*1 (heap st) !! a = None) /\
  (forall a, a ∉ l.*1 -> free_all l.*1 (heap st) !! a = heap st !! a).
Proof.
  intros Hrepr Hrd. split; [| split].
  - destruct (live_at_entry_reader st (proj2 (proj2 Hrd))) as [_ ->].
    by apply q_deinit_locked_ok.
  - intros a. apply free_all_freed.
  - intros a. apply free_all_other.
Qed.

(** C8.  On a queue that holds a node and is not destroyed, q_traverse with
    a callback calls it once for the payload of each node, from head to tail,
    returns success and leaves the memory as it was. *)
Theorem traverse_visits_payloads (st : state) (l : list (ptr * ptr)) :
  queue_repr st l -> l <> [] ->
  destroyed st = 0 -> lock st = false -> int_range (readers st) ->
  q_traverse queue_addr callback_fn st = Returns (EXIT_SUCCESS, l.*2) st.
Proof.
  intros Hrepr Hl Hd Hlk Hr.
  destruct (live_at_entry_reader st Hd) as [-> _].
  rewrite (q_traverse_locked_ok st l) by done.
  rewrite wrap_int_incr_decr by done. by destruct st.
Qed.

(** C9.  After a call of q_deinit has returned, a second call returns at
    once and leaves the memory as it is. *)
Theorem deinit_idempotent (q : queue_ptr) (st st1 : state) :
  q_deinit q st = Returns tt st1 ->
  q_deinit q st1 = Returns tt st1 /\
  (q = queue_addr -> destroyed st1 <> 0).
Proof.
  destruct q; [intros [= <-]; done |].
  intros Hrun.
  assert (Hd1 : destroyed st1 <> 0).
  { destruct st as [h hd tl lk r d].
    destruct (decide (d = 0)) as [-> | Hd].
    - revert Hrun. run_code. destruct lk; run_code; [done |].
      destruct (truthy r); run_code; [done |].
      destruct (free_loop _ _ _); run_code; try done.
      by intros [= <-].
    - revert Hrun. run_code. by intros [= <-]. }
  split; [| done]. by apply destroyed_at_entry_deinit.
Qed.


Lemma follow_next_dlseg h p l cur e :
  dlseg h p l cur e -> follow_next h (length l) cur = Some e.
Proof.
  revert p cur. induction l as [| [a x] l IH]; intros p cur; simpl.
  - by intros ->.
  - intros (-> & _ & nx & -> & Hl). simpl. eauto.
Qed.

(** The invariant, in the words of its statement. *)
Lemma queue_repr_structure st l : queue_repr st l -> structure st (length l).
Proof.
  intros Hrepr. pose proof Hrepr as [Hseg Htl].
  assert (Hne : l <> [] -> head st <> NULL /\ tail st <> NULL)
    by apply (queue_repr_nonempty st l Hrepr).
  assert (Hnil : l = [] -> head st = NULL /\ tail st = NULL).
  { intros ->. simpl in Hseg, Htl. done. }
  assert (Hsnoc : forall l0 a x, l = l0 ++ [(a, x)] ->
            tail st = a /\ dlseg (heap st) NULL l0 (head st) a /\
            exists pa, heap st !! a = Some (Node x pa NULL)).
  { intros l0 a x ->. rewrite last_fst_snoc in Htl. simpl in Htl.
    apply dlseg_app in Hseg as (mid & Hl0 & (-> & _ & nx & Hcell & ->)).
    eauto. }
  split.
  - destruct l; [destruct Hnil; [done |]; by split |].
    destruct Hne; [done |]. by split.
  - destruct l; [destruct Hnil; [done |]; by split |].
    destruct Hne; [done |]. by split.
  - intros Hhd. destruct l as [| [a x] l]; [by destruct Hnil |].
    destruct Hseg as (-> & _ & nx & Hcell & _). eauto.
  - intros Htl0. destruct l as [| [a x] l0 _] using rev_ind;
      [by destruct Hnil |].
    destruct (Hsnoc l0 a x eq_refl) as (-> & _ & pa & Hcell). eauto.
  - intros Hcount. destruct l as [| [a x] l0 _] using rev_ind; [done |].
    destruct (Hsnoc l0 a x eq_refl) as (-> & Hl0 & _).
    rewrite length_app. simpl.
    replace (length l0 + 1 - 1)%nat with (length l0) by lia.
    by eapply follow_next_dlseg.
  - by eapply follow_next_dlseg.
  - intros i a b Hi Ha Hb.
    destruct (lookup_lt_is_Some_2 l i) as [[a' x] Hla]; [lia |].
    destruct (lookup_lt_is_Some_2 l (S i)) as [[b' y] Hlb]; [lia |].
    pose proof (take_drop_middle l i _ Hla) as Hsplit.
    rewrite (drop_S l (b', y) (S i) Hlb) in Hsplit.
    assert (Hlen : length (take i l) = i) by (rewrite length_take; lia).
    pose proof Hseg as Hseg1. rewrite <- Hsplit in Hseg1.
    apply dlseg_app in Hseg1
      as (mid & Hl1 & (-> & _ & nx & Hcella & (-> & _ & nn & Hcellb & _))).
    apply follow_next_dlseg in Hl1. rewrite Hlen, Ha in Hl1.
    injection Hl1 as ->.
    pose proof Hseg as Hseg2. rewrite <- Hsplit in Hseg2.
    rewrite (cons_middle (a', x)), app_assoc in Hseg2.
    apply dlseg_app in Hseg2 as (mid & Hl2 & (-> & _)).
    apply follow_next_dlseg in Hl2.
    rewrite length_app, Hlen in Hl2. simpl in Hl2.
    replace (i + 1)%nat with (S i) in Hl2 by lia.
    rewrite Hb in Hl2. injection Hl2 as ->.
    eauto 10.
Qed.

(** C6.  Every public operation keeps the structural invariant: the memory
    in which a call returns or waits holds a well-formed list, for which the
    stated facts hold (head and tail null together and exactly for the empty
    list, no predecessor of the head, no successor of the tail, the walk from
    head along [next] visits as many nodes as the queue has elements and ends
    at the tail, [next] and [prev] inverse to each other).  No call runs for
    ever; the one call that ends otherwise is the push on the empty queue
    whose node is not allocated. *)
Theorem structural_invariant_preserved (c : call) (st : state) :
  queue_inv st -> call_malloc_answer st c ->
  match exec junk c st with
  | Returns _ st' | Blocks st' =>
      queue_inv st' /\
      exists l', queue_repr st' l' /\ structure st' (length l')
  | Faults => first_node_not_allocated c /\ queue_repr st []
  | Diverges => False
  end.
Proof.
  intros [l Hrepr] Hm.
  pose proof (exec_cases junk c st l Hrepr Hm) as Hcases.
  destruct (exec junk c st) as [r st' | st' | |]; [| | | done].
  - destruct Hcases as [-> | (l' & Hr' & _)].
    + split; [by exists l |]. exists l. eauto using queue_repr_structure.
    + split; [by exists l' |]. exists l'. eauto using queue_repr_structure.
  - subst st'. split; [by exists l |].
    exists l. eauto using queue_repr_structure.
  - destruct Hcases as (-> & ? & _). done.
Qed.

Lemma list_after_payloads c l l' :
  list_after c l l' -> NULL ∉ l.*2 -> NULL ∉ l'.*2.
Proof.
  destruct c; simpl.
  - intros -> _ Hin. by apply elem_of_nil in Hin.
  - intros [-> Hx] Hl. rewrite fmap_cons. simpl.
    apply not_elem_of_cons. split; [congruence | done].
  - intros [-> Hx] Hl. rewrite fmap_app. simpl.
    apply not_elem_of_app. split; [done |].
    apply not_elem_of_cons. split; [congruence |].
    intros Hin. by apply elem_of_nil in Hin.
  - intros (a & x & ->). rewrite fmap_cons.
    intros Hl. by apply not_elem_of_cons in Hl as [_ ?].
  - intros (a & x & ->). rewrite fmap_app.
    intros Hl. by apply not_elem_of_app in Hl as [? _].
  - by intros ->.
  - intros -> _ Hin. by apply elem_of_nil in Hin.
Qed.

(** C10.  The pushes reject a null object before they take the lock, so
    every call keeps the payloads of the queue non-null, and q_pop_front and
    q_pop_back return NULL exactly when they fail: when the queue pointer is
    null or the queue is destroyed at the call, and, for a waiter that is
    woken, when the queue is destroyed by then. *)
Theorem null_sentinel_unambiguous (st : state) (l : list (ptr * ptr)) :
  queue_repr st l -> NULL ∉ l.*2 ->
  (forall q m,
     q_push_front junk q NULL m st = Returns EXIT_FAILURE st /\
     q_push_back junk q NULL m st = Returns EXIT_FAILURE st) /\
  (forall c r st',
     call_malloc_answer st c -> exec junk c st = Returns r st' ->
     exists l', queue_repr st' l' /\ NULL ∉ l'.*2) /\
  (forall q p st',
     q_pop_front q st = Returns p st' \/ q_pop_back q st = Returns p st' ->
     (p = NULL <-> q = NULL_queue \/ destroyed st <> 0)) /\
  (forall p st',
     q_pop_front_locked st = Returns p st' \/
     q_pop_back_locked st = Returns p st' ->
     (p = NULL <-> destroyed st <> 0)).
Proof.
  intros Hrepr Hl.
  assert (Hlocked : forall p st',
     q_pop_front_locked st = Returns p st' \/
     q_pop_back_locked st = Returns p st' ->
     (p = NULL <-> destroyed st <> 0)).
  { intros p st' [Hrun | Hrun].
    - destruct (q_pop_front_locked_cases st l Hrepr)
        as [[Hf Hd] | [Hb | (st1 & a & x & l' & Hp & -> & _ & Hrd & _)]];
        [| congruence |].
      + rewrite Hf in Hrun. injection Hrun as <- _. done.
      + rewrite Hp in Hrun. injection Hrun as <- _.
        destruct Hrd as (_ & _ & ->).
        rewrite fmap_cons in Hl. apply not_elem_of_cons in Hl as [Hx _].
        simpl in Hx. split; [congruence | done].
    - destruct (q_pop_back_locked_cases st l Hrepr)
        as [[Hf Hd] | [Hb | (st1 & a & x & l' & Hp & -> & _ & Hrd & _)]];
        [| congruence |].
      + rewrite Hf in Hrun. injection Hrun as <- _. done.
      + rewrite Hp in Hrun. injection Hrun as <- _.
        destruct Hrd as (_ & _ & ->).
        rewrite fmap_app in Hl. apply not_elem_of_app in Hl as [_ Hx].
        apply not_elem_of_cons in Hx as [Hx _].
        simpl in Hx. split; [congruence | done]. }
  split; [| split; [| split; [| done]]].
  - intros q m. destruct q, st; by run_code.
  - intros c r st' Hm Hrun.
    pose proof (exec_cases junk c st l Hrepr Hm) as Hcases.
    rewrite Hrun in Hcases.
    destruct Hcases as [-> | (l' & Hr' & Hafter & _)]; [eauto |].
    exists l'. eauto using list_after_payloads.
  - intros q p st' Hrun. destruct q.
    { destruct Hrun as [[= <- _] | [= <- _]]; tauto. }
    destruct (decide (destroyed st = 0)) as [Hd | Hd].
    + destruct (live_at_entry junk st 0 0 Hd) as (_ & Hf & Hb & _).
      rewrite Hf, Hb in Hrun. rewrite (Hlocked p st' Hrun).
      split; [tauto | intros [? | ?]; done].
    + destruct (destroyed_at_entry junk st 0 0 callback_fn Hd)
        as (_ & _ & Hf & Hb & _).
      rewrite Hf, Hb in Hrun.
      destruct Hrun as [[= <- _] | [= <- _]]; tauto.
Qed.

(** C4, as the code has it.  Once the destroyed flag is set, no call other
    than q_init changes the memory, so the flag stays set: every such call
    returns at its entry check.  On a live queue the flag is set by q_deinit
    alone, and the memory in which it is set has head and tail NULL and
    none of the nodes of the list.  q_init clears the flag. *)
Theorem destroyed_flag_lifecycle :
  (forall cs st,
     destroyed st <> 0 ->
     Forall (fun c => forall q, c <> call_init q) cs ->
     exists rs, run junk cs st = (rs, Returns tt st)) /\
  (forall c st l r st',
     queue_repr st l -> call_malloc_answer st c ->
     destroyed st = 0 ->
     exec junk c st = Returns r st' -> destroyed st' <> 0 ->
     c = call_deinit queue_addr /\
     head st' = NULL /\ tail st' = NULL /\
     forall a, a ∈ l.*1 -> heap st' !! a = None) /\
  (forall st,
     exists st',
       q_init queue_addr st = Returns EXIT_SUCCESS st' /\ destroyed st' = 0).
Proof.
  split; [| split].
  - intros cs st Hd. induction cs as [| c cs IH]; intros Hcs.
    + by exists [].
    + apply Forall_cons in Hcs as [Hc Hcs].
      destruct (IH Hcs) as [rs Hrs].
      destruct (destroyed_at_entry junk st 0 0 callback_fn Hd)
        as (_ & _ & Hpf & Hpb & _ & Hde).
      assert (Hexec : exists r, exec junk c st = Returns r st).
      { destruct c as [q | q x m | q x m | q | q | q f | q];
          [by destruct (Hc q) | | | | | |];
          (destruct q; [by eexists |]); unfold exec, bind.
        - destruct (destroyed_at_entry junk st x m callback_fn Hd)
            as (-> & _). by eexists.
        - destruct (destroyed_at_entry junk st x m callback_fn Hd)
            as (_ & -> & _). by eexists.
        - rewrite Hpf. by eexists.
        - rewrite Hpb. by eexists.
        - destruct (destroyed_at_entry junk st 0 0 f Hd)
            as (_ & _ & _ & _ & -> & _). by eexists.
        - rewrite Hde. by eexists. }
      destruct Hexec as [r Hexec].
      exists (r :: rs). by rewrite run_cons, Hexec, Hrs.
  - intros c st l r st' Hrepr Hm Hd Hrun Hd'.
    pose proof (exec_cases junk c st l Hrepr Hm) as Hcases.
    rewrite Hrun in Hcases.
    destruct Hcases as [-> | (l' & Hr' & _ & Hflag)]; [done |].
    destruct c as [q | q x m | q x m | q | q | q f | q]; simpl in Hflag;
      try congruence.
    destruct Hflag as (_ & _ & Hhd & Htl & Hheap).
    destruct q.
    { simpl in Hrun. injection Hrun as _ <-. done. }
    repeat split; try done.
    intros a Ha. rewrite Hheap. by apply free_all_freed.
  - intros st. destruct st. eexists. split; [by run_code | done].
Qed.

End Claims.

(** * The claims on concrete memories *)

Lemma two_nodes_repr : queue_repr two_nodes [(101, 200); (102, 100)].
Proof.
  split; [| reflexivity].
  simpl. split; [reflexivity |]. split; [done |].
  exists 102. split; [reflexivity |].
  split; [reflexivity |]. split; [done |].
  exists NULL. split; reflexivity.
Qed.

Lemma empty_queue_repr : queue_repr empty_queue [].
Proof. split; reflexivity. Qed.

Lemma empty_queue_ready : ready empty_queue.
Proof. repeat split. Qed.

Lemma two_nodes_ready : ready two_nodes.
Proof. repeat split. Qed.

(** C1 on the examples of the statement: q_push_front(1), q_push_front(2),
    q_pop_back() gives 1; q_push_front(7), q_pop_front() gives 7 and leaves
    the queue empty. *)
Lemma deque_simulation_witness :
  (run junk0 [call_push_front queue_addr 1 101;
              call_push_front queue_addr 2 102;
              call_pop_back queue_addr] empty_queue).1
  = [res_int EXIT_SUCCESS; res_int EXIT_SUCCESS; res_ptr 1] /\
  (run junk0 [call_push_front queue_addr 7 101;
              call_pop_front queue_addr] empty_queue).1
  = [res_int EXIT_SUCCESS; res_ptr 7] /\
  exists st',
    (run junk0 [call_push_front queue_addr 7 101;
                call_pop_front queue_addr] empty_queue).2 = Returns tt st' /\
    queue_repr st' [].
Proof.
  split; [| split].
  - refine (proj1 (deque_simulation junk0 _ empty_queue []
                     empty_queue_repr empty_queue_ready _ _)).
    + repeat constructor; done.
    + vm_compute. repeat split; discriminate.
  - refine (proj1 (deque_simulation junk0 _ empty_queue []
                     empty_queue_repr empty_queue_ready _ _)).
    + repeat constructor; done.
    + vm_compute. repeat split; discriminate.
  - destruct (deque_simulation junk0
                [call_push_front queue_addr 7 101; call_pop_front queue_addr]
                empty_queue [] empty_queue_repr empty_queue_ready
                ltac:(repeat constructor; done)
                ltac:(vm_compute; repeat split; discriminate))
      as [_ Hfin].
    assert (E : run junk0 [call_push_front queue_addr 7 101;
                           call_pop_front queue_addr] empty_queue
                = ([res_int EXIT_SUCCESS; res_ptr 7], Returns tt empty_queue))
      by (vm_compute; reflexivity).
    rewrite E in Hfin. rewrite E. simpl in Hfin.
    destruct Hfin as (l' & Hr' & Hl' & _).
    apply fmap_nil_inv in Hl'. subst l'. exists empty_queue. done.
Defined.

(** C2 on the empty queue: the push whose node is not allocated faults. *)
Lemma allocation_failure_witness :
  q_push_front junk0 queue_addr 7 NULL empty_queue = Faults /\
  q_push_back junk0 queue_addr 7 NULL empty_queue = Faults.
Proof.
  refine (proj2 (allocation_failure junk0 empty_queue [] 7
                   empty_queue_repr empty_queue_ready _) eq_refl).
  discriminate.
Defined.

(** C3 on the queue after [q_deinit]. *)
Lemma destroyed_queue_fails_witness :
  (q_push_front junk0 queue_addr 7 101 dead_queue
     = Returns EXIT_FAILURE dead_queue /\
   q_push_back junk0 queue_addr 7 101 dead_queue
     = Returns EXIT_FAILURE dead_queue /\
   q_pop_front queue_addr dead_queue = Returns NULL dead_queue /\
   q_pop_back queue_addr dead_queue = Returns NULL dead_queue /\
   q_traverse queue_addr callback_fn dead_queue
     = Returns (EXIT_FAILURE, []) dead_queue) /\
  q_traverse_locked dead_queue = Returns (EXIT_FAILURE, []) dead_queue.
Proof.
  destruct (destroyed_queue_fails junk0 dead_queue 7 101 callback_fn)
    as [Hentry Hwoken].
  - discriminate.
  - split; [exact Hentry |].
    apply Hwoken; [reflexivity |]. unfold int_range. simpl. lia.
Defined.

(** C4 as stated fails: after [q_deinit] has set the flag, [q_init] clears
    it. *)
Lemma destroyed_reverts_on_init :
  (run junk0 [call_deinit queue_addr] empty_queue).2 = Returns tt dead_queue /\
  destroyed dead_queue <> 0 /\
  (run junk0 [call_deinit queue_addr; call_init queue_addr] empty_queue).2
    = Returns tt empty_queue /\
  destroyed empty_queue = 0.
Proof. repeat split. discriminate. Qed.

(** C4 as amended, on a destroyed queue. *)
Lemma destroyed_flag_lifecycle_witness :
  exists rs,
    run junk0 [call_push_front queue_addr 7 101; call_pop_front queue_addr;
               call_traverse queue_addr callback_fn; call_deinit queue_addr]
        dead_queue
    = (rs, Returns tt dead_queue).
Proof.
  apply (proj1 (destroyed_flag_lifecycle junk0)).
  - discriminate.
  - repeat constructor; discriminate.
Defined.

(** C5 as stated fails: on the queue after [q_init], q_traverse does not
    return. *)
Lemma traverse_blocks_on_empty :
  head empty_queue = NULL /\ destroyed empty_queue = 0 /\
  q_traverse queue_addr callback_fn empty_queue = Blocks empty_queue /\
  ~ exists r st',
      q_traverse queue_addr callback_fn empty_queue = Returns r st'.
Proof.
  repeat split. intros (r & st' & H). discriminate H.
Qed.

(** C5 as amended, on the queue after [q_init]. *)
Lemma traverse_waits_on_empty_witness :
  q_traverse queue_addr callback_fn empty_queue = Blocks empty_queue.
Proof. apply (traverse_waits_on_empty empty_queue); reflexivity. Defined.

(** C6 on a push to the back of the queue of two nodes. *)
Lemma structural_invariant_preserved_witness :
  exists st',
    exec junk0 (call_push_back queue_addr 300 103) two_nodes
      = Returns (res_int EXIT_SUCCESS) st' /\
    queue_inv st' /\
    exists l', queue_repr st' l' /\ structure st' (length l').
Proof.
  pose proof (structural_invariant_preserved junk0
                (call_push_back queue_addr 300 103) two_nodes
                (ex_intro _ _ two_nodes_repr)
                (or_intror eq_refl)) as H.
  destruct (exec junk0 (call_push_back queue_addr 300 103) two_nodes)
    as [r st' | | |] eqn:E; vm_compute in E; try discriminate E.
  injection E as <- <-.
  eexists. split; [reflexivity | exact H].
Defined.

(** C7 on the queue of two nodes. *)
Lemma deinit_frees_nodes_witness :
  q_deinit queue_addr two_nodes = Returns tt dead_queue.
Proof.
  exact (proj1 (deinit_frees_nodes two_nodes [(101, 200); (102, 100)]
                  two_nodes_repr two_nodes_ready)).
Defined.

(** C8 on the queue of two nodes. *)
Lemma traverse_visits_payloads_witness :
  q_traverse queue_addr callback_fn two_nodes
    = Returns (EXIT_SUCCESS, [200; 100]) two_nodes.
Proof.
  apply (traverse_visits_payloads two_nodes [(101, 200); (102, 100)]).
  - exact two_nodes_repr.
  - discriminate.
  - reflexivity.
  - reflexivity.
  - unfold int_range. simpl. lia.
Defined.

(** C9 on the queue of two nodes: the second call. *)
Lemma deinit_idempotent_witness :
  q_deinit queue_addr two_nodes = Returns tt dead_queue /\
  q_deinit queue_addr dead_queue = Returns tt dead_queue.
Proof.
  assert (H : q_deinit queue_addr two_nodes = Returns tt dead_queue)
    by reflexivity.
  split; [exact H |].
  exact (proj1 (deinit_idempotent queue_addr two_nodes dead_queue H)).
Defined.

(** C10 on the queue of two nodes: a null object is rejected, and the pop
    returns the payload 200, which is not NULL. *)
Lemma null_sentinel_unambiguous_witness :
  q_push_front junk0 queue_addr NULL 103 two_nodes
    = Returns EXIT_FAILURE two_nodes /\
  (exists st', q_pop_front queue_addr two_nodes = Returns 200 st') /\
  (200 = NULL <-> queue_addr = NULL_queue \/ destroyed two_nodes <> 0).
Proof.
  destruct (null_sentinel_unambiguous junk0 two_nodes
              [(101, 200); (102, 100)] two_nodes_repr)
    as (Hreject & _ & Hpop & _).
  - intros Hin. repeat (apply elem_of_cons in Hin as [Hin | Hin];
                        [discriminate Hin |]).
    by apply elem_of_nil in Hin.
  - split; [exact (proj1 (Hreject queue_addr 103)) |].
    assert (E : exists st', q_pop_front queue_addr two_nodes = Returns 200 st')
      by (eexists; vm_compute; reflexivity).
    split; [exact E |]. destruct E as [st' E].
    exact (Hpop queue_addr 200 st' (or_introl E)).
Defined.

(** * Further properties of queue_r.c *)

Section Further.

Variable junk : node.

(** ** A push and the pop at the same end *)

(** X4.  On a live queue without readers, a push followed by the pop at the
    same end returns the pushed object and restores the memory exactly: the
    block of the new node is freed again and the link of the neighbour that
    the push rewrote is NULL as before. *)
Theorem push_pop_restores_memory (st : state) (l : list (ptr * ptr))
    (x m : ptr) :
  queue_repr st l -> ready st ->
  x <> NULL -> m <> NULL -> heap st !! m = None ->
  run junk [call_push_front queue_addr x m; call_pop_front queue_addr] st
    = ([res_int EXIT_SUCCESS; res_ptr x], Returns tt st) /\
  run junk [call_push_back queue_addr x m; call_pop_back queue_addr] st
    = ([res_int EXIT_SUCCESS; res_ptr x], Returns tt st).
Proof.
  intros Hrepr (Hlk & Hr & Hd) Hx Hm Hfresh.
  destruct st as [h hd tl lk r d]. fields. subst lk r d.
  destruct (decide (l = [])) as [-> | Hl].
  - destruct Hrepr as [Hseg Htl]. fields. simpl in Hseg, Htl. subst hd tl.
    split; unfold run, exec; run_code; by rewrite delete_insert_id.
  - destruct (queue_repr_nonempty _ l Hrepr Hl) as [Hhd Htl0]. fields.
    destruct Hrepr as [Hseg Htl]. fields.
    assert (m <> hd /\ m <> tl) as [Hmhd Hmtl].
    { split; intros <-.
      - destruct l as [| [a y] l]; [done |].
        destruct Hseg as (-> & _ & nx & Ha & _). congruence.
      - destruct (last_is_Some l.*1) as [_ [c Hc]].
        { by destruct l. }
        rewrite Hc in Htl. simpl in Htl. subst c.
        apply last_Some_elem_of in Hc.
        eapply dlseg_live in Hc as [_ [? ?]]; [| exact Hseg]. congruence. }
    split.
    + destruct l as [| [a y] l]; [done |].
      destruct Hseg as (-> & _ & nx & Ha & _).
      unfold run, exec. run_code.
      match goal with
      | |- (_, Returns _ (State ?h1 _ _ _ _ _)) = _ =>
          replace h1 with h; [done |]
      end.
      symmetry. apply map_eq. intros k.
      destruct (decide (k = a)) as [-> | ?]; [by rewrite lookup_insert_eq |].
      rewrite lookup_insert_ne by done.
      destruct (decide (k = m)) as [-> | ?]; [by rewrite lookup_delete_eq |].
      by rewrite lookup_delete_ne, !lookup_insert_ne by done.
    + destruct l as [| [t y] l0 _] using rev_ind; [done |].
      rewrite last_fst_snoc in Htl. simpl in Htl. subst tl.
      apply dlseg_app in Hseg as (mid & _ & (-> & _ & nx & Ht & ->)).
      unfold run, exec. run_code.
      match goal with
      | |- (_, Returns _ (State ?h1 _ _ _ _ _)) = _ =>
          replace h1 with h; [done |]
      end.
      symmetry. apply map_eq. intros k.
      destruct (decide (k = t)) as [-> | ?]; [by rewrite lookup_insert_eq |].
      rewrite lookup_insert_ne by done.
      destruct (decide (k = m)) as [-> | ?]; [by rewrite lookup_delete_eq |].
      by rewrite lookup_delete_ne, !lookup_insert_ne by done.
Qed.

(** ** The storage outside the list *)

(** A push or pop on a ready queue writes no block other than the nodes of
    the list before and after it. *)
Lemma exec_deque_call_frame c st l r st' :
  queue_repr st l -> ready st -> deque_call c ->
  allocations_succeed junk [c] st ->
  exec junk c st = Returns r st' ->
  forall k,
    k ∉ l.*1 ->
    match c with
    | call_push_front _ _ m | call_push_back _ _ m => k <> m
    | _ => True
    end ->
    heap st' !! k = heap st !! k.
Proof.
  intros Hrepr (Hlk & Hr & Hd) Hc [Halloc _].
  destruct st as [h hd tl lk rd d]. fields. subst lk rd d.
  destruct Hrepr as [Hseg Htl]. fields.
  destruct c as [q | q x m | q x m | q | q | q f | q]; try done;
    (destruct q; [done |]); simpl in Hc; unfold exec.
  - (* q_push_front *)
    destruct Halloc as [Hm Hfresh]. fields.
    destruct l as [| [a y] l].
    + simpl in Hseg, Htl. subst hd tl. run_code.
      intros [= <- <-] k _ Hk. fields. by rewrite lookup_insert_ne.
    + destruct Hseg as (-> & Ha & nx & Hcell & _). run_code.
      intros [= <- <-] k Hk Hkm. fields.
      rewrite fmap_cons in Hk. apply not_elem_of_cons in Hk as [Hka _].
      simpl in Hka. by rewrite !lookup_insert_ne.
  - (* q_push_back *)
    destruct Halloc as [Hm Hfresh]. fields.
    destruct l as [| [t y] l0 _] using rev_ind.
    + simpl in Hseg, Htl. subst hd tl. run_code.
      intros [= <- <-] k _ Hk. fields. by rewrite lookup_insert_ne.
    + rewrite last_fst_snoc in Htl. simpl in Htl. subst tl.
      apply dlseg_app in Hseg as (mid & _ & (-> & Ht & nx & Hcell & ->)).
      run_code.
      intros [= <- <-] k Hk Hkm. fields.
      rewrite fmap_app in Hk. apply not_elem_of_app in Hk as [_ Hk].
      apply not_elem_of_cons in Hk as [Hkt _].
      simpl in Hkt. by rewrite !lookup_insert_ne.
  - (* q_pop_front *)
    destruct l as [| [a y] l].
    + simpl in Hseg. subst hd. by run_code.
    + pose proof (dlseg_NoDup _ _ _ _ Hseg) as Hnd.
      rewrite fmap_cons in Hnd. apply NoDup_cons in Hnd as [Hnin _].
      destruct Hseg as (-> & Ha & nx & Hcell & Hl).
      destruct l as [| [b z] l].
      * simpl in Hl, Htl. subst nx tl. run_code.
        intros [= <- <-] k Hk _. fields.
        rewrite fmap_cons in Hk. apply not_elem_of_cons in Hk as [Hka _].
        simpl in Hka. by rewrite lookup_delete_ne.
      * destruct Hl as (-> & Hb & nn & Hcellb & Hl).
        rewrite fmap_cons in Hnin.
        apply not_elem_of_cons in Hnin as [Hab Hnin]. simpl in Hab.
        assert (Hatl : a <> tl).
        { subst tl. rewrite !fmap_cons, !default_last_cons.
          destruct (last _) as [c |] eqn:E; simpl; [| done].
          intros ->. apply Hnin. by apply last_Some_elem_of in E. }
        run_code.
        intros [= <- <-] k Hk _. fields.
        rewrite !fmap_cons in Hk.
        apply not_elem_of_cons in Hk as [Hka Hk].
        apply not_elem_of_cons in Hk as [Hkb _]. simpl in Hka, Hkb.
        by rewrite lookup_insert_ne, lookup_delete_ne.
  - (* q_pop_back *)
    destruct l as [| [a y] l _] using rev_ind.
    + simpl in Hseg. subst hd. by run_code.
    + pose proof (dlseg_NoDup _ _ _ _ Hseg) as Hnd.
      rewrite fmap_app in Hnd. apply NoDup_app in Hnd as (_ & Hnin & _).
      rewrite last_fst_snoc in Htl. simpl in Htl. subst tl.
      apply dlseg_app in Hseg as (mid & Hl & (-> & Ha & nx & Hcell & ->)).
      destruct l as [| [b z] l0 _] using rev_ind.
      * simpl in Hl. subst hd. run_code.
        intros [= <- <-] k Hk _. fields.
        apply not_elem_of_cons in Hk as [Hka _].
        simpl in Hka. by rewrite lookup_delete_ne.
      * assert (Hab : a <> b).
        { intros ->. eapply (Hnin b).
          - rewrite fmap_app. apply elem_of_app. right.
            by apply list_elem_of_singleton.
          - by apply list_elem_of_singleton. }
        assert (hd <> a /\ hd <> NULL) as [Hhd Hhd0].
        { destruct l0 as [| [c w] l0].
          - simpl in Hl. destruct Hl as (-> & ? & _). split; congruence.
          - simpl in Hl. destruct Hl as (-> & ? & _). split; [| done].
            intros ->. eapply (Hnin a).
            + simpl. apply elem_of_cons. by left.
            + by apply list_elem_of_singleton. }
        rewrite last_fst_snoc in Hcell. simpl in Hcell.
        apply dlseg_app in Hl as (mid & _ & (-> & Hb & nb & Hcellb & ->)).
        run_code.
        intros [= <- <-] k Hk _. fields.
        rewrite !fmap_app in Hk.
        apply not_elem_of_app in Hk as [Hk Hka].
        apply not_elem_of_app in Hk as [_ Hkb].
        apply not_elem_of_cons in Hka as [Hka _].
        apply not_elem_of_cons in Hkb as [Hkb _]. simpl in Hka, Hkb.
        by rewrite lookup_insert_ne, lookup_delete_ne.
Qed.

Lemma run_app cs1 cs2 st :
  run junk (cs1 ++ cs2) st =
  match run junk cs1 st with
  | (rs1, Returns _ st') =>
      let (rs2, o) := run junk cs2 st' in (rs1 ++ rs2, o)
  | (rs1, o) => (rs1, o)
  end.
Proof.
  revert st. induction cs1 as [| c cs1 IH]; intros st.
  - simpl. by destruct (run junk cs2 st).
  - rewrite <- app_comm_cons, !run_cons.
    destruct (exec junk c st) as [r st' | st' | |]; try done.
    rewrite IH. destruct (run junk cs1 st') as [rs1 [u st'' | st'' | |]];
      try done.
    by destruct (run junk cs2 st'').
Qed.

Lemma exec_pop_front_freed st a x l :
  queue_repr st ((a, x) :: l) -> ready st ->
  exists st',
    exec junk (call_pop_front queue_addr) st = Returns (res_ptr x) st' /\
    queue_repr st' l /\ ready st' /\ heap st' !! a = None.
Proof.
  intros Hrepr Hrd.
  destruct (q_pop_front_locked_ok st a x l Hrepr Hrd)
    as (st' & Hrun & Hr' & Hrd' & Hfreed).
  exists st'. split; [| done]. unfold exec, bind.
  destruct (live_at_entry junk st 0 0 (proj2 (proj2 Hrd))) as (_ & -> & _).
  by rewrite Hrun.
Qed.

Lemma exec_pop_back_freed st a x l :
  queue_repr st (l ++ [(a, x)]) -> ready st ->
  exists st',
    exec junk (call_pop_back queue_addr) st = Returns (res_ptr x) st' /\
    queue_repr st' l /\ ready st' /\ heap st' !! a = None.
Proof.
  intros Hrepr Hrd.
  destruct (q_pop_back_locked_ok st a x l Hrepr Hrd)
    as (st' & Hrun & Hr' & Hrd' & Hfreed).
  exists st'. split; [| done]. unfold exec, bind.
  destruct (live_at_entry junk st 0 0 (proj2 (proj2 Hrd))) as (_ & _ & -> & _).
  by rewrite Hrun.
Qed.

(** The storage is [h0] and the nodes [l], which are not blocks of [h0]. *)
Lemma owned_run_deinit (h0 : gmap Z node) cs st l :
  queue_repr st l -> ready st ->
  (forall k, k ∈ l.*1 -> h0 !! k = None) ->
  (forall k, k ∉ l.*1 -> heap st !! k = h0 !! k) ->
  Forall deque_call cs ->
  allocations_succeed junk cs st ->
  match (run junk (cs ++ [call_deinit queue_addr]) st).2 with
  | Returns _ st' =>
      heap st' = h0 /\ head st' = NULL /\ tail st' = NULL /\
      destroyed st' = 1
  | Blocks st' => heap st' = h0 /\ queue_repr st' [] /\ ready st'
  | _ => False
  end.
Proof.
  revert st l. induction cs as [| c cs IH];
    intros st l Hrepr Hrd Hin Hout Hcs Halloc.
  - rewrite app_nil_l, run_cons. unfold exec, bind.
    destruct (live_at_entry_reader st (proj2 (proj2 Hrd))) as [_ ->].
    rewrite (q_deinit_locked_ok st l Hrepr Hrd). simpl.
    repeat split. apply map_eq. intros k.
    destruct (decide (k ∈ l.*1)) as [Hk | Hk].
    + rewrite free_all_freed by done. symmetry. by apply Hin.
    + rewrite free_all_other by done. by apply Hout.
  - apply Forall_cons in Hcs as [Hc Hcs].
    assert (Hc1 : allocations_succeed junk [c] st).
    { destruct Halloc as [? _]. split; [done |].
      by destruct (exec junk c st). }
    pose proof (exec_deque_call_frame c st l) as Hframe.
    assert (Hstep : forall r st' l',
      exec junk c st = Returns r st' ->
      queue_repr st' l' -> ready st' ->
      (forall k, k ∈ l'.*1 -> h0 !! k = None) ->
      (forall k, k ∉ l'.*1 -> heap st' !! k = h0 !! k) ->
      match (run junk ((c :: cs) ++ [call_deinit queue_addr]) st).2 with
      | Returns _ st' =>
          heap st' = h0 /\ head st' = NULL /\ tail st' = NULL /\
          destroyed st' = 1
      | Blocks st' => heap st' = h0 /\ queue_repr st' [] /\ ready st'
      | _ => False
      end).
    { intros r st' l' Hexec Hr' Hrd' Hin' Hout'.
      destruct Halloc as [_ Halloc]. rewrite Hexec in Halloc.
      specialize (IH st' l' Hr' Hrd' Hin' Hout' Hcs Halloc).
      rewrite <- app_comm_cons, run_cons, Hexec.
      by destruct (run junk (cs ++ [call_deinit queue_addr]) st'). }
    destruct c as [q | q x m | q x m | q | q | q f | q]; try done.
    + destruct Halloc as [[Hm Hfresh] _].
      destruct (exec_push_front_ready junk st l q x m Hrepr Hrd Hc Hm Hfresh)
        as (st' & Hexec & Hr' & Hrd').
      assert (Hml : m ∉ l.*1).
      { intros Hk. eapply dlseg_live in Hk as [_ [? ?]];
          [| exact (proj1 Hrepr)]. congruence. }
      eapply (Hstep _ st' ((m, x) :: l)); [exact Hexec | done | done | |].
      * intros k Hk. rewrite fmap_cons in Hk.
        apply elem_of_cons in Hk as [-> | Hk]; [| by apply Hin].
        simpl. rewrite <- Hout by done. done.
      * intros k Hk. rewrite fmap_cons in Hk.
        apply not_elem_of_cons in Hk as [Hkm Hk]. simpl in Hkm.
        rewrite (Hframe _ st' Hrepr Hrd Hc Hc1 Hexec k Hk Hkm).
        by apply Hout.
    + destruct Halloc as [[Hm Hfresh] _].
      destruct (exec_push_back_ready junk st l q x m Hrepr Hrd Hc Hm Hfresh)
        as (st' & Hexec & Hr' & Hrd').
      assert (Hml : m ∉ l.*1).
      { intros Hk. eapply dlseg_live in Hk as [_ [? ?]];
          [| exact (proj1 Hrepr)]. congruence. }
      eapply (Hstep _ st' (l ++ [(m, x)])); [exact Hexec | done | done | |].
      * intros k Hk. rewrite fmap_app in Hk.
        apply elem_of_app in Hk as [Hk | Hk]; [by apply Hin |].
        apply list_elem_of_singleton in Hk. simpl in Hk. subst k.
        rewrite <- Hout by done. done.
      * intros k Hk. rewrite fmap_app in Hk.
        apply not_elem_of_app in Hk as [Hk Hkm].
        apply not_elem_of_cons in Hkm as [Hkm _]. simpl in Hkm.
        rewrite (Hframe _ st' Hrepr Hrd Hc Hc1 Hexec k Hk Hkm).
        by apply Hout.
    + destruct q; [done |].
      destruct l as [| [a x] l].
      * destruct (exec_pop_empty junk st Hrepr Hrd) as [Hexec _].
        rewrite <- app_comm_cons, run_cons, Hexec. simpl.
        split; [| done]. apply map_eq. intros k. apply Hout.
        intros Hk. by apply elem_of_nil in Hk.
      * destruct (exec_pop_front_freed st a x l Hrepr Hrd)
          as (st' & Hexec & Hr' & Hrd' & Hfreed).
        eapply (Hstep _ st' l); [exact Hexec | done | done | |].
        { intros k Hk. apply Hin. rewrite fmap_cons.
          apply elem_of_cons. by right. }
        intros k Hk. destruct (decide (k = a)) as [-> | Hka].
        { rewrite Hfreed. symmetry. apply Hin. rewrite fmap_cons.
          apply elem_of_cons. by left. }
        rewrite (Hframe _ st' Hrepr Hrd Hc Hc1 Hexec k); [| | done].
        { apply Hout. rewrite fmap_cons.
          apply not_elem_of_cons. by split. }
        rewrite fmap_cons. apply not_elem_of_cons. by split.
    + destruct q; [done |].
      destruct l as [| [a x] l _] using rev_ind.
      * destruct (exec_pop_empty junk st Hrepr Hrd) as [_ Hexec].
        rewrite <- app_comm_cons, run_cons, Hexec. simpl.
        split; [| done]. apply map_eq. intros k. apply Hout.
        intros Hk. by apply elem_of_nil in Hk.
      * destruct (exec_pop_back_freed st a x l Hrepr Hrd)
          as (st' & Hexec & Hr' & Hrd' & Hfreed).
        assert (Hal : forall k, k ∉ l.*1 -> k <> a -> k ∉ (l ++ [(a, x)]).*1).
        { intros k Hk Hka. rewrite fmap_app. apply not_elem_of_app.
          split; [done |]. apply not_elem_of_cons. split; [done |].
          intros H. by apply elem_of_nil in H. }
        eapply (Hstep _ st' l); [exact Hexec | done | done | |].
        { intros k Hk. apply Hin. rewrite fmap_app.
          apply elem_of_app. by left. }
        intros k Hk. destruct (decide (k = a)) as [-> | Hka].
        { rewrite Hfreed. symmetry. apply Hin. rewrite fmap_app.
          apply elem_of_app. right. by apply list_elem_of_singleton. }
        rewrite (Hframe _ st' Hrepr Hrd Hc Hc1 Hexec k); [| | done].
        { apply Hout. by apply Hal. }
        by apply Hal.
Qed.

(** X5.  No block is leaked: after any pushes and pops on a queue that was
    empty, q_deinit leaves the storage exactly as it was before the first
    call, with head and tail NULL and the destroyed flag set.  When the
    sequence stops early at a pop that waits on the empty queue, the storage
    is as at the start as well. *)
Theorem deinit_leaves_no_node (cs : list call) (st : state) :
  queue_repr st [] -> ready st ->
  Forall deque_call cs ->
  allocations_succeed junk cs st ->
  match (run junk (cs ++ [call_deinit queue_addr]) st).2 with
  | Returns _ st' =>
      heap st' = heap st /\ head st' = NULL /\ tail st' = NULL /\
      destroyed st' = 1
  | Blocks st' => heap st' = heap st /\ queue_repr st' [] /\ ready st'
  | _ => False
  end.
Proof.
  intros Hrepr Hrd Hcs Halloc.
  apply (owned_run_deinit (heap st) cs st []); try done.
  intros k Hk. by apply elem_of_nil in Hk.
Qed.

End Further.

Section Order.

Variable junk : node.

(** The storage is [h0] together with the nodes [l]: one step of a push or a
    pop keeps it so. *)
Lemma owned_push (h0 : gmap Z node) (back : bool) st l x m :
  queue_repr st l -> ready st ->
  (forall k, k ∈ l.*1 -> h0 !! k = None) ->
  (forall k, k ∉ l.*1 -> heap st !! k = h0 !! k) ->
  x <> NULL -> m <> NULL -> heap st !! m = None ->
  let c := if back then call_push_back queue_addr x m
           else call_push_front queue_addr x m in
  let l' := if back then l ++ [(m, x)] else (m, x) :: l in
  exists st',
    exec junk c st = Returns (res_int EXIT_SUCCESS) st' /\
    queue_repr st' l' /\ ready st' /\
    (forall k, k ∈ l'.*1 -> h0 !! k = None) /\
    (forall k, k ∉ l'.*1 -> heap st' !! k = h0 !! k) /\
    (forall k, k <> m -> heap st !! k = None -> heap st' !! k = None).
Proof.
  intros Hrepr Hrd Hin Hout Hx Hm Hfresh c l'.
  assert (Hlive : forall k : ptr, heap st !! k = None -> k ∉ l.*1).
  { intros k Hk Hkl. eapply dlseg_live in Hkl as [_ [? ?]];
      [| exact (proj1 Hrepr)]. congruence. }
  assert (Hc : deque_call c) by (subst c; by destruct back).
  assert (Hc1 : allocations_succeed junk [c] st).
  { split; [by subst c; destruct back |]. by destruct (exec junk c st). }
  assert (Hexec : exists st',
            exec junk c st = Returns (res_int EXIT_SUCCESS) st' /\
            queue_repr st' l' /\ ready st').
  { subst c l'. destruct back.
    - by apply exec_push_back_ready.
    - by apply exec_push_front_ready. }
  destruct Hexec as (st' & Hexec & Hr' & Hrd').
  pose proof (exec_deque_call_frame junk c st l _ st' Hrepr Hrd Hc Hc1 Hexec)
    as Hframe.
  assert (Hl' : forall k, k ∈ l'.*1 <-> k = m \/ k ∈ l.*1).
  { intros k. subst l'. destruct back.
    - rewrite fmap_app, elem_of_app. simpl.
      rewrite list_elem_of_singleton. tauto.
    - rewrite fmap_cons, elem_of_cons. simpl. tauto. }
  assert (Hkm : forall k, k <> m ->
            match c with
            | call_push_front _ _ m | call_push_back _ _ m => k <> m
            | _ => True
            end) by (intros k ?; subst c; by destruct back).
  exists st'. do 3 (split; [done |]). split; [| split].
  - intros k [-> | Hk]%Hl'; [| by apply Hin].
    rewrite <- Hout by auto. done.
  - intros k Hk. rewrite Hl' in Hk.
    assert (k <> m /\ k ∉ l.*1) as [Hk1 Hk2] by tauto.
    rewrite (Hframe k Hk2 (Hkm k Hk1)). by apply Hout.
  - intros k Hk Hnone. by rewrite (Hframe k (Hlive k Hnone) (Hkm k Hk)).
Qed.

Lemma owned_pop_front (h0 : gmap Z node) st a x l :
  queue_repr st ((a, x) :: l) -> ready st ->
  (forall k, k ∈ ((a, x) :: l).*1 -> h0 !! k = None) ->
  (forall k, k ∉ ((a, x) :: l).*1 -> heap st !! k = h0 !! k) ->
  exists st',
    exec junk (call_pop_front queue_addr) st = Returns (res_ptr x) st' /\
    queue_repr st' l /\ ready st' /\
    (forall k, k ∈ l.*1 -> h0 !! k = None) /\
    (forall k, k ∉ l.*1 -> heap st' !! k = h0 !! k).
Proof.
  intros Hrepr Hrd Hin Hout.
  destruct (exec_pop_front_freed junk st a x l Hrepr Hrd)
    as (st' & Hexec & Hr' & Hrd' & Hfreed).
  assert (Hc1 : allocations_succeed junk [call_pop_front queue_addr] st).
  { split; [done |]. by destruct (exec _ _ _). }
  pose proof (fun Hc => exec_deque_call_frame junk _ st _ _ st' Hrepr Hrd Hc Hc1 Hexec)
    as Hframe.
  exists st'. do 3 (split; [done |]). split.
  - intros k Hk. apply Hin. rewrite fmap_cons. apply elem_of_cons. by right.
  - intros k Hk. destruct (decide (k = a)) as [-> | Hka].
    + rewrite Hfreed. symmetry. apply Hin. rewrite fmap_cons.
      apply elem_of_cons. by left.
    + assert (k ∉ ((a, x) :: l).*1).
      { rewrite fmap_cons. apply not_elem_of_cons. by split. }
      rewrite (Hframe I) by done. by apply Hout.
Qed.

Lemma owned_pop_back (h0 : gmap Z node) st a x l :
  queue_repr st (l ++ [(a, x)]) -> ready st ->
  (forall k, k ∈ (l ++ [(a, x)]).*1 -> h0 !! k = None) ->
  (forall k, k ∉ (l ++ [(a, x)]).*1 -> heap st !! k = h0 !! k) ->
  exists st',
    exec junk (call_pop_back queue_addr) st = Returns (res_ptr x) st' /\
    queue_repr st' l /\ ready st' /\
    (forall k, k ∈ l.*1 -> h0 !! k = None) /\
    (forall k, k ∉ l.*1 -> heap st' !! k = h0 !! k).
Proof.
  intros Hrepr Hrd Hin Hout.
  destruct (exec_pop_back_freed junk st a x l Hrepr Hrd)
    as (st' & Hexec & Hr' & Hrd' & Hfreed).
  assert (Hc1 : allocations_succeed junk [call_pop_back queue_addr] st).
  { split; [done |]. by destruct (exec _ _ _). }
  pose proof (fun Hc => exec_deque_call_frame junk _ st _ _ st' Hrepr Hrd Hc Hc1 Hexec)
    as Hframe.
  assert (Hl' : forall k, k ∈ (l ++ [(a, x)]).*1 <-> k ∈ l.*1 \/ k = a).
  { intros k. rewrite fmap_app, elem_of_app. simpl.
    by rewrite list_elem_of_singleton. }
  exists st'. do 3 (split; [done |]). split.
  - intros k Hk. apply Hin, Hl'. by left.
  - intros k Hk. destruct (decide (k = a)) as [-> | Hka].
    + rewrite Hfreed. symmetry. apply Hin, Hl'. by right.
    + assert (k ∉ (l ++ [(a, x)]).*1) by (rewrite Hl'; tauto).
      rewrite (Hframe I) by done. by apply Hout.
Qed.

Lemma owned_push_all (h0 : gmap Z node) (back : bool) xs :
  forall ms st l,
    queue_repr st l -> ready st ->
    (forall k, k ∈ l.*1 -> h0 !! k = None) ->
    (forall k, k ∉ l.*1 -> heap st !! k = h0 !! k) ->
    Forall (fun x => x <> NULL) xs ->
    length ms = length xs -> NoDup ms ->
    Forall (fun m => m <> NULL /\ heap st !! m = None) ms ->
    let l' := if back then l ++ zip ms xs else reverse (zip ms xs) ++ l in
    exists st',
      run junk (zip_with (if back then call_push_back queue_addr
                          else call_push_front queue_addr) xs ms) st
        = (replicate (length xs) (res_int EXIT_SUCCESS), Returns tt st') /\
      queue_repr st' l' /\ ready st' /\
      (forall k, k ∈ l'.*1 -> h0 !! k = None) /\
      (forall k, k ∉ l'.*1 -> heap st' !! k = h0 !! k).
Proof.
  induction xs as [| x xs IH];
    intros ms st l Hrepr Hrd Hin Hout Hxs Hlen Hnd Hms l'.
  - destruct ms; [| done]. subst l'. exists st. simpl.
    destruct back; simpl; rewrite ?app_nil_r; done.
  - destruct ms as [| m ms]; [done |].
    apply Forall_cons in Hxs as [Hx Hxs].
    apply Forall_cons in Hms as [[Hm Hfresh] Hms].
    apply NoDup_cons in Hnd as [Hmms Hnd].
    injection Hlen as Hlen.
    destruct (owned_push h0 back st l x m Hrepr Hrd Hin Hout Hx Hm Hfresh)
      as (st1 & Hexec & Hr1 & Hrd1 & Hin1 & Hout1 & Hfresh1).
    assert (Hms1 : Forall (fun m => m <> NULL /\ heap st1 !! m = None) ms).
    { apply Forall_forall. intros m' Hm'.
      rewrite Forall_forall in Hms. destruct (Hms m' Hm') as [? ?].
      split; [done |]. apply Hfresh1; [| done]. by intros ->. }
    destruct (IH ms st1 _ Hr1 Hrd1 Hin1 Hout1 Hxs Hlen Hnd Hms1)
      as (st' & Hrun & Hr' & Hrd' & Hin' & Hout').
    assert (Hl' : (if back
                   then (if back then l ++ [(m, x)] else (m, x) :: l)
                          ++ zip ms xs
                   else reverse (zip ms xs)
                          ++ (if back then l ++ [(m, x)] else (m, x) :: l))
                  = l').
    { subst l'. destruct back; simpl.
      - by rewrite <- app_assoc.
      - by rewrite reverse_cons, <- app_assoc. }
    rewrite Hl' in Hr', Hin', Hout'.
    exists st'. split; [| done].
    simpl zip_with. rewrite run_cons.
    destruct back; rewrite Hexec, Hrun; done.
Qed.

Lemma owned_pop_front_all (h0 : gmap Z node) l :
  forall st,
    queue_repr st l -> ready st ->
    (forall k, k ∈ l.*1 -> h0 !! k = None) ->
    (forall k, k ∉ l.*1 -> heap st !! k = h0 !! k) ->
    exists st',
      run junk (replicate (length l) (call_pop_front queue_addr)) st
        = (res_ptr <$> l.*2, Returns tt st') /\
      queue_repr st' [] /\ ready st' /\ heap st' = h0.
Proof.
  induction l as [| [a x] l IH]; intros st Hrepr Hrd Hin Hout.
  - exists st. do 3 (split; [done |]).
    apply map_eq. intros k. apply Hout. intros Hk. by apply elem_of_nil in Hk.
  - destruct (owned_pop_front h0 st a x l Hrepr Hrd Hin Hout)
      as (st1 & Hexec & Hr1 & Hrd1 & Hin1 & Hout1).
    destruct (IH st1 Hr1 Hrd1 Hin1 Hout1) as (st' & Hrun & Hr' & Hrd' & Hh).
    exists st'. split; [| done].
    simpl length. simpl replicate. by rewrite run_cons, Hexec, Hrun.
Qed.

Lemma owned_pop_back_all (h0 : gmap Z node) l :
  forall st,
    queue_repr st l -> ready st ->
    (forall k, k ∈ l.*1 -> h0 !! k = None) ->
    (forall k, k ∉ l.*1 -> heap st !! k = h0 !! k) ->
    exists st',
      run junk (replicate (length l) (call_pop_back queue_addr)) st
        = (res_ptr <$> reverse l.*2, Returns tt st') /\
      queue_repr st' [] /\ ready st' /\ heap st' = h0.
Proof.
  induction l as [| [a x] l IH] using rev_ind; intros st Hrepr Hrd Hin Hout.
  - exists st. do 3 (split; [done |]).
    apply map_eq. intros k. apply Hout. intros Hk. by apply elem_of_nil in Hk.
  - destruct (owned_pop_back h0 st a x l Hrepr Hrd Hin Hout)
      as (st1 & Hexec & Hr1 & Hrd1 & Hin1 & Hout1).
    destruct (IH st1 Hr1 Hrd1 Hin1 Hout1) as (st' & Hrun & Hr' & Hrd' & Hh).
    exists st'. split; [| done].
    rewrite length_app, Nat.add_1_r. simpl replicate.
    rewrite run_cons, Hexec, Hrun.
    by rewrite fmap_app, reverse_app.
Qed.

(** A traversal between the calls of one thread. *)
Lemma exec_traverse_ready st l :
  queue_repr st l -> l <> [] -> ready st ->
  exec junk (call_traverse queue_addr callback_fn) st
    = Returns (res_traverse EXIT_SUCCESS l.*2) st.
Proof.
  intros Hrepr Hl (Hlk & Hr & Hd). unfold exec, bind.
  destruct (live_at_entry_reader st Hd) as [-> _].
  rewrite (q_traverse_locked_ok st l) by done.
  destruct st as [h hd tl lk r d]. fields. subst. reflexivity.
Qed.

(** X6.  The sequential test of tests/test.c, for any payloads [xs]: the
    objects pushed at the back are traversed in the order of the pushes and
    popped from the front in that order; the objects pushed at the front are
    traversed in the reverse order and popped from the back in the order of
    the pushes.  Each run ends with the memory it started from. *)
Theorem first_in_first_out (xs ms : list ptr) (st : state) :
  queue_repr st [] -> ready st ->
  xs <> [] -> Forall (fun x => x <> NULL) xs ->
  length ms = length xs -> NoDup ms ->
  Forall (fun m => m <> NULL /\ heap st !! m = None) ms ->
  run junk (zip_with (call_push_back queue_addr) xs ms
            ++ call_traverse queue_addr callback_fn
            :: replicate (length xs) (call_pop_front queue_addr)) st
    = (replicate (length xs) (res_int EXIT_SUCCESS)
       ++ res_traverse EXIT_SUCCESS xs :: (res_ptr <$> xs),
       Returns tt st) /\
  run junk (zip_with (call_push_front queue_addr) xs ms
            ++ call_traverse queue_addr callback_fn
            :: replicate (length xs) (call_pop_back queue_addr)) st
    = (replicate (length xs) (res_int EXIT_SUCCESS)
       ++ res_traverse EXIT_SUCCESS (reverse xs) :: (res_ptr <$> xs),
       Returns tt st).
Proof.
  intros Hrepr Hrd Hxs Hnn Hlen Hnd Hms.
  assert (Hin : forall k : ptr, k ∈ ([] : list (ptr * ptr)).*1 ->
                  heap st !! k = None).
  { intros k Hk. by apply elem_of_nil in Hk. }
  assert (Hzip : (zip ms xs).*2 = xs) by (apply snd_zip; lia).
  assert (Hzlen : length (zip ms xs) = length xs).
  { rewrite length_zip_with. lia. }
  assert (Hzne : zip ms xs <> []).
  { intros Hz. rewrite Hz in Hzlen. by destruct xs. }
  assert (Hsame : forall st', queue_repr st' [] -> ready st' ->
                    heap st' = heap st -> st' = st).
  { intros st' [Hs1 Ht1] (? & ? & ?) Hh.
    destruct Hrepr as [Hs Ht], Hrd as (? & ? & ?).
    destruct st, st'. simpl in *. congruence. }
  split.
  - destruct (owned_push_all (heap st) true xs ms st [] Hrepr Hrd Hin
                (fun _ _ => eq_refl) Hnn Hlen Hnd Hms)
      as (st1 & Hrun1 & Hr1 & Hrd1 & Hin1 & Hout1).
    simpl in Hr1, Hin1, Hout1.
    destruct (owned_pop_front_all (heap st) _ st1 Hr1 Hrd1 Hin1 Hout1)
      as (st2 & Hrun2 & Hr2 & Hrd2 & Hh2).
    rewrite run_app, Hrun1, run_cons.
    rewrite (exec_traverse_ready st1 _ Hr1 Hzne Hrd1).
    rewrite Hzlen in Hrun2. rewrite Hrun2, Hzip.
    by rewrite (Hsame st2 Hr2 Hrd2 Hh2).
  - destruct (owned_push_all (heap st) false xs ms st [] Hrepr Hrd Hin
                (fun _ _ => eq_refl) Hnn Hlen Hnd Hms)
      as (st1 & Hrun1 & Hr1 & Hrd1 & Hin1 & Hout1).
    simpl in Hr1, Hin1, Hout1. rewrite app_nil_r in Hr1, Hin1, Hout1.
    destruct (owned_pop_back_all (heap st) _ st1 Hr1 Hrd1 Hin1 Hout1)
      as (st2 & Hrun2 & Hr2 & Hrd2 & Hh2).
    assert (Hrne : reverse (zip ms xs) <> []).
    { intros Hz. apply (f_equal length) in Hz.
      rewrite length_reverse, Hzlen in Hz. by destruct xs. }
    rewrite run_app, Hrun1, run_cons.
    rewrite (exec_traverse_ready st1 _ Hr1 Hrne Hrd1).
    rewrite length_reverse, Hzlen in Hrun2. rewrite Hrun2.
    rewrite fmap_reverse, reverse_involutive, Hzip.
    by rewrite (Hsame st2 Hr2 Hrd2 Hh2).
Qed.

(** X10.  Last in, first out at one end: the objects pushed at the front
    are popped from the front in the reverse order of the pushes, and the
    same holds at the back.  Each run ends with the memory it started
    from. *)
Theorem last_in_first_out (xs ms : list ptr) (st : state) :
  queue_repr st [] -> ready st ->
  Forall (fun x => x <> NULL) xs ->
  length ms = length xs -> NoDup ms ->
  Forall (fun m => m <> NULL /\ heap st !! m = None) ms ->
  run junk (zip_with (call_push_front queue_addr) xs ms
            ++ replicate (length xs) (call_pop_front queue_addr)) st
    = (replicate (length xs) (res_int EXIT_SUCCESS)
       ++ (res_ptr <$> reverse xs),
       Returns tt st) /\
  run junk (zip_with (call_push_back queue_addr) xs ms
            ++ replicate (length xs) (call_pop_back queue_addr)) st
    = (replicate (length xs) (res_int EXIT_SUCCESS)
       ++ (res_ptr <$> reverse xs),
       Returns tt st).
Proof.
  intros Hrepr Hrd Hnn Hlen Hnd Hms.
  assert (Hin : forall k : ptr, k ∈ ([] : list (ptr * ptr)).*1 ->
                  heap st !! k = None).
  { intros k Hk. by apply elem_of_nil in Hk. }
  assert (Hzip : (zip ms xs).*2 = xs) by (apply snd_zip; lia).
  assert (Hzlen : length (zip ms xs) = length xs).
  { rewrite length_zip_with. lia. }
  assert (Hsame : forall st', queue_repr st' [] -> ready st' ->
                    heap st' = heap st -> st' = st).
  { intros st' [Hs1 Ht1] (? & ? & ?) Hh.
    destruct Hrepr as [Hs Ht], Hrd as (? & ? & ?).
    destruct st, st'. simpl in *. congruence. }
  split.
  - destruct (owned_push_all (heap st) false xs ms st [] Hrepr Hrd Hin
                (fun _ _ => eq_refl) Hnn Hlen Hnd Hms)
      as (st1 & Hrun1 & Hr1 & Hrd1 & Hin1 & Hout1).
    simpl in Hr1, Hin1, Hout1. rewrite app_nil_r in Hr1, Hin1, Hout1.
    destruct (owned_pop_front_all (heap st) _ st1 Hr1 Hrd1 Hin1 Hout1)
      as (st2 & Hrun2 & Hr2 & Hrd2 & Hh2).
    rewrite run_app, Hrun1.
    rewrite length_reverse, Hzlen in Hrun2. rewrite Hrun2.
    rewrite fmap_reverse, Hzip.
    by rewrite (Hsame st2 Hr2 Hrd2 Hh2).
  - destruct (owned_push_all (heap st) true xs ms st [] Hrepr Hrd Hin
                (fun _ _ => eq_refl) Hnn Hlen Hnd Hms)
      as (st1 & Hrun1 & Hr1 & Hrd1 & Hin1 & Hout1).
    simpl in Hr1, Hin1, Hout1.
    destruct (owned_pop_back_all (heap st) _ st1 Hr1 Hrd1 Hin1 Hout1)
      as (st2 & Hrun2 & Hr2 & Hrd2 & Hh2).
    rewrite run_app, Hrun1.
    rewrite Hzlen in Hrun2. rewrite Hrun2, Hzip.
    by rewrite (Hsame st2 Hr2 Hrd2 Hh2).
Qed.

End Order.

Section Waiting.

Variable junk : node.

(** X2.  When the operations wait.  On a queue that is not destroyed, a push
    and q_deinit wait exactly when the mutex is held or a reader is
    registered, a pop waits exactly then and when the queue is empty, and
    q_traverse waits exactly when the mutex is held or the queue is empty;
    on a destroyed queue none of them waits.  A call that waits leaves the
    memory as it was. *)
Theorem waiting_conditions (st : state) (l : list (ptr * ptr)) (x m : ptr) :
  queue_repr st l -> malloc_answer st m -> x <> NULL ->
  (q_push_front junk queue_addr x m st = Blocks st <->
     destroyed st = 0 /\ (lock st = true \/ readers st <> 0)) /\
  (q_push_back junk queue_addr x m st = Blocks st <->
     destroyed st = 0 /\ (lock st = true \/ readers st <> 0)) /\
  (q_pop_front queue_addr st = Blocks st <->
     destroyed st = 0 /\ (lock st = true \/ readers st <> 0 \/ l = [])) /\
  (q_pop_back queue_addr st = Blocks st <->
     destroyed st = 0 /\ (lock st = true \/ readers st <> 0 \/ l = [])) /\
  (q_traverse queue_addr callback_fn st = Blocks st <->
     destroyed st = 0 /\ (lock st = true \/ l = [])) /\
  (q_deinit queue_addr st = Blocks st <->
     destroyed st = 0 /\ (lock st = true \/ readers st <> 0)) /\
  (forall c st',
     call_malloc_answer st c -> exec junk c st = Blocks st' -> st' = st).
Proof.
  intros Hrepr Hm Hx.
  assert (Hlast : forall c st',
     call_malloc_answer st c -> exec junk c st = Blocks st' -> st' = st).
  { intros c st' Hc Hrun.
    pose proof (exec_cases junk c st l Hrepr Hc) as Hcases.
    by rewrite Hrun in Hcases. }
  assert (Hdead : destroyed st <> 0 ->
            forall P : Prop, destroyed st = 0 /\ P -> False).
  { intros ? P [? _]. done. }
  split_and!; [| | | | | | exact Hlast].
  - (* q_push_front *)
    destruct (decide (destroyed st = 0)) as [Hd | Hd].
    2: { destruct (destroyed_at_entry junk st x m callback_fn Hd) as (-> & _).
         split; [done | intros H; by destruct (Hdead Hd _ H)]. }
    destruct (live_at_entry junk st x m Hd) as (Hpush & _).
    destruct (Hpush Hx) as [-> _].
    destruct (lock st) eqn:Hlk.
    { destruct st. fields. subst. split; [by auto |]. intros _. by run_code. }
    destruct (decide (readers st = 0)) as [Hr | Hr].
    2: { destruct st. fields. subst. split; [by auto |]. intros _.
         by run_code. }
    split; [| by intros (_ & [? | ?])].
    intros Hb. exfalso.
    destruct (decide (m = NULL)) as [-> | Hm0].
    + destruct (decide (l = [])) as [-> | Hl].
      * destruct Hrepr as [Hseg Htl].
        destruct st as [h hd tl lk r d]. fields. simpl in Hseg, Htl. subst.
        revert Hb. by run_code.
      * destruct (queue_repr_nonempty st l Hrepr Hl) as [Hhd Htl].
        destruct st as [h hd tl lk r d]. fields. subst.
        revert Hb. by run_code.
    + destruct Hm as [? | Hm]; [done |].
      destruct (q_push_front_locked_ok junk st l x m Hrepr
                  (conj Hlk (conj Hr Hd)) Hx Hm0 Hm) as (st' & Hrun & _).
      congruence.
  - (* q_push_back *)
    destruct (decide (destroyed st = 0)) as [Hd | Hd].
    2: { destruct (destroyed_at_entry junk st x m callback_fn Hd)
           as (_ & -> & _).
         split; [done | intros H; by destruct (Hdead Hd _ H)]. }
    destruct (live_at_entry junk st x m Hd) as (Hpush & _).
    destruct (Hpush Hx) as [_ ->].
    destruct (lock st) eqn:Hlk.
    { destruct st. fields. subst. split; [by auto |]. intros _. by run_code. }
    destruct (decide (readers st = 0)) as [Hr | Hr].
    2: { destruct st. fields. subst. split; [by auto |]. intros _.
         by run_code. }
    split; [| by intros (_ & [? | ?])].
    intros Hb. exfalso.
    destruct (decide (m = NULL)) as [-> | Hm0].
    + destruct (decide (l = [])) as [-> | Hl].
      * destruct Hrepr as [Hseg Htl].
        destruct st as [h hd tl lk r d]. fields. simpl in Hseg, Htl. subst.
        revert Hb. by run_code.
      * destruct (queue_repr_nonempty st l Hrepr Hl) as [Hhd Htl].
        destruct st as [h hd tl lk r d]. fields. subst.
        revert Hb. by run_code.
    + destruct Hm as [? | Hm]; [done |].
      destruct (q_push_back_locked_ok junk st l x m Hrepr
                  (conj Hlk (conj Hr Hd)) Hx Hm0 Hm) as (st' & Hrun & _).
      congruence.
  - (* q_pop_front *)
    destruct (decide (destroyed st = 0)) as [Hd | Hd].
    2: { destruct (destroyed_at_entry junk st x m callback_fn Hd)
           as (_ & _ & -> & _).
         split; [done | intros H; by destruct (Hdead Hd _ H)]. }
    destruct (live_at_entry junk st x m Hd) as (_ & -> & _).
    destruct (lock st) eqn:Hlk.
    { destruct st. fields. subst. split; [by auto |]. intros _. by run_code. }
    destruct (decide (readers st = 0)) as [Hr | Hr].
    2: { destruct st as [h hd tl lk r d]. fields. subst.
         split; [by auto |]. intros _. run_code. by destruct (truthy hd). }
    destruct l as [| [a y] l].
    + split; [by auto |]. intros _.
      destruct Hrepr as [Hseg _]. destruct st. fields. simpl in Hseg. subst.
      by run_code.
    + destruct (q_pop_front_locked_ok st a y l Hrepr
                  (conj Hlk (conj Hr Hd))) as (st' & -> & _).
      split; [done | by intros (_ & [? | [? | ?]])].
  - (* q_pop_back *)
    destruct (decide (destroyed st = 0)) as [Hd | Hd].
    2: { destruct (destroyed_at_entry junk st x m callback_fn Hd)
           as (_ & _ & _ & -> & _).
         split; [done | intros H; by destruct (Hdead Hd _ H)]. }
    destruct (live_at_entry junk st x m Hd) as (_ & _ & -> & _).
    destruct (lock st) eqn:Hlk.
    { destruct st. fields. subst. split; [by auto |]. intros _. by run_code. }
    destruct (decide (readers st = 0)) as [Hr | Hr].
    2: { destruct st as [h hd tl lk r d]. fields. subst.
         split; [by auto |]. intros _. run_code. by destruct (truthy hd). }
    destruct l as [| [a y] l _] using rev_ind.
    + split; [by auto |]. intros _.
      destruct Hrepr as [Hseg _]. destruct st. fields. simpl in Hseg. subst.
      by run_code.
    + destruct (q_pop_back_locked_ok st a y l Hrepr
                  (conj Hlk (conj Hr Hd))) as (st' & -> & _).
      split; [done |]. intros (_ & [? | [? | Hl]]); try done.
      by destruct l.
  - (* q_traverse *)
    destruct (decide (destroyed st = 0)) as [Hd | Hd].
    2: { destruct (destroyed_at_entry junk st x m callback_fn Hd)
           as (_ & _ & _ & _ & -> & _).
         split; [done | intros H; by destruct (Hdead Hd _ H)]. }
    destruct (live_at_entry_reader st Hd) as [-> _].
    destruct (lock st) eqn:Hlk.
    { destruct st. fields. subst. split; [by auto |]. intros _. by run_code. }
    destruct (decide (l = [])) as [-> | Hl].
    + split; [by auto |]. intros _.
      destruct Hrepr as [Hseg _]. destruct st. fields. simpl in Hseg. subst.
      by run_code.
    + rewrite (q_traverse_locked_ok st l) by done.
      split; [done | by intros (_ & [? | ?])].
  - (* q_deinit *)
    destruct (decide (destroyed st = 0)) as [Hd | Hd].
    2: { rewrite (destroyed_at_entry_deinit st Hd).
         split; [done | intros H; by destruct (Hdead Hd _ H)]. }
    destruct (live_at_entry_reader st Hd) as [_ ->].
    destruct (lock st) eqn:Hlk.
    { destruct st. fields. subst. split; [by auto |]. intros _. by run_code. }
    destruct (decide (readers st = 0)) as [Hr | Hr].
    2: { destruct st. fields. subst. split; [by auto |]. intros _.
         by run_code. }
    rewrite (q_deinit_locked_ok st l) by done.
    split; [done | by intros (_ & [? | ?])].
Qed.

End Waiting.

(** Splits on every test and every storage access of the code. *)
Ltac all_paths :=
  repeat first
    [ progress run_code
    | match goal with
      | H : truthy ?z = _ |- context [truthy ?z] => rewrite H
      | H : (?a =? ?b) = _ |- context [?a =? ?b] => rewrite H
      end
    | match goal with
      | |- context [truthy ?z] => destruct (truthy z) eqn:?
      | |- context [?a =? ?b] => destruct (a =? b) eqn:?
      | |- context [?h !! ?p] => destruct (h !! p) eqn:?
      end ].

Section Mutex.

Variable junk : node.

(** X3.  Readers exclude writers and admit readers.  After [read_lock] on a
    live queue that holds a node, one more reader is registered; in that
    memory the pushes, the pops and q_deinit wait, while q_traverse still
    returns the payloads; [read_unlock] then restores the memory in which
    [read_lock] was called. *)
Theorem reader_excludes_writers (st : state) (l : list (ptr * ptr))
    (x m : ptr) :
  queue_repr st l -> l <> [] ->
  lock st = false -> destroyed st = 0 ->
  0 <= readers st < 2 ^ 31 - 1 -> x <> NULL ->
  let st1 := set_readers (readers st + 1) st in
  read_lock st = Returns tt st1 /\
  q_push_front junk queue_addr x m st1 = Blocks st1 /\
  q_push_back junk queue_addr x m st1 = Blocks st1 /\
  q_pop_front queue_addr st1 = Blocks st1 /\
  q_pop_back queue_addr st1 = Blocks st1 /\
  q_deinit queue_addr st1 = Blocks st1 /\
  q_traverse queue_addr callback_fn st1 = Returns (EXIT_SUCCESS, l.*2) st1 /\
  read_unlock st1 = Returns tt st.
Proof.
  intros Hrepr Hl Hlk Hd Hr Hx st1.
  destruct (queue_repr_nonempty st l Hrepr Hl) as [Hhd Htl].
  assert (Hr1 : readers st + 1 <> 0) by lia.
  assert (Hw : wrap_int (readers st + 1) = readers st + 1).
  { apply wrap_int_id. unfold int_range. lia. }
  assert (Hw' : wrap_int (readers st + 1 - 1) = readers st).
  { replace (readers st + 1 - 1) with (readers st) by lia.
    apply wrap_int_id. unfold int_range. lia. }
  assert (Hrepr1 : queue_repr st1 l) by by apply queue_repr_set_readers.
  split_and!.
  - subst st1. destruct st as [h hd tl lk r d]. fields. subst.
    run_code. by rewrite Hw.
  - subst st1. destruct st as [h hd tl lk r d]. fields. subst. by run_code.
  - subst st1. destruct st as [h hd tl lk r d]. fields. subst. by run_code.
  - subst st1. destruct st as [h hd tl lk r d]. fields. subst. by run_code.
  - subst st1. destruct st as [h hd tl lk r d]. fields. subst. by run_code.
  - subst st1. destruct st as [h hd tl lk r d]. fields. subst. by run_code.
  - assert (Hd1 : destroyed st1 = 0) by (subst st1; by destruct st).
    assert (Hlk1 : lock st1 = false) by (subst st1; by destruct st).
    destruct (live_at_entry_reader st1 Hd1) as [-> _].
    rewrite (q_traverse_locked_ok st1 l) by done.
    rewrite wrap_int_incr_decr; [by destruct st |].
    subst st1. destruct st. unfold int_range. simpl in *. lia.
  - subst st1. destruct st as [h hd tl lk r d]. fields. subst.
    run_code. rewrite Hw'. by destruct (r =? 0).
Qed.

Lemma traverse_loop_state (fuel : nat) (cur : ptr) (st : state) :
  match traverse_loop fuel cur st with
  | Returns _ st' => st' = st
  | Blocks _ => False
  | _ => True
  end.
Proof.
  revert cur. induction fuel as [| fuel IH]; intros cur; simpl.
  - destruct (truthy cur); done.
  - destruct (truthy cur) eqn:E; [| done].
    unfold bind, load. rewrite E.
    destruct (heap st !! cur) as [n |]; [| done].
    specialize (IH (next n)).
    destruct (traverse_loop fuel (next n) st); done.
Qed.

Lemma free_loop_state (fuel : nat) (cur : ptr) (st : state) :
  match free_loop fuel cur st with
  | Returns _ st' => st' = set_heap (heap st') st
  | Blocks _ => False
  | _ => True
  end.
Proof.
  revert cur st. induction fuel as [| fuel IH]; intros cur st; simpl.
  - destruct (truthy cur); [done |]. by destruct st.
  - destruct (truthy cur) eqn:E; [| by destruct st].
    unfold bind, load, free. rewrite E.
    destruct (heap st !! cur) as [n |] eqn:En; [| done].
    rewrite En.
    specialize (IH (next n) (set_heap (delete cur (heap st)) st)).
    destruct (free_loop fuel (next n) _) as [u st' | | |]; try done.
Qed.

(** X7.  The mutex is never kept.  In any memory whatever in which the mutex
    is free, a call that returns or waits leaves the mutex free.  In any
    memory in which another thread holds the mutex, a call other than q_init
    changes nothing: it returns at its entry check or waits for the mutex;
    q_init alone writes the queue without taking the mutex. *)
Theorem mutex_discipline (c : call) (st : state) :
  (lock st = false ->
   match exec junk c st with
   | Returns _ st' | Blocks st' => lock st' = false
   | _ => True
   end) /\
  (lock st = true -> (forall q, c <> call_init q) ->
   match exec junk c st with
   | Returns _ st' | Blocks st' => st' = st
   | _ => False
   end) /\
  (forall st' r,
     exec junk (call_init queue_addr) st = Returns r st' ->
     lock st' = lock st /\ heap st' = heap st).
Proof.
  split_and!.
  - intros Hlk. destruct st as [h hd tl lk r d]. fields. subst lk.
    destruct c as [q | q x m | q x m | q | q | q f | q];
      (destruct q; [done |]); unfold exec.
    + by run_code.
    + all_paths; done.
    + all_paths; done.
    + all_paths; done.
    + all_paths; done.
    + destruct f; [done |]. all_paths; try done;
        match goal with
        | |- context [traverse_loop ?n ?c ?s] =>
            pose proof (traverse_loop_state n c s) as Hloop;
            destruct (traverse_loop n c s) as [calls st' | | |]
        end; try done; subst st'; all_paths; done.
    + all_paths; try done;
        match goal with
        | |- context [free_loop ?n ?c ?s] =>
            pose proof (free_loop_state n c s) as Hloop;
            destruct (free_loop n c s) as [u st' | | |]
        end; try done; rewrite Hloop; all_paths; done.
  - intros Hlk Hc. destruct st as [h hd tl lk r d]. fields. subst lk.
    destruct c as [q | q x m | q x m | q | q | q f | q];
      [by destruct (Hc q) | | | | | |];
      (destruct q; [done |]); unfold exec; try destruct f;
      all_paths; done.
  - intros st' r. destruct st. simpl. unfold bind. run_code.
    by intros [= _ <-].
Qed.

(** X11.  A waiting pop is served.  On the empty live queue both pops
    wait.  When another thread has pushed an object, the woken pop returns
    that object and the memory is as it was before the push; when another
    thread has called q_deinit, the woken pop returns NULL. *)
Theorem waiting_pop_is_served (st : state) (x m : ptr) :
  queue_repr st [] -> ready st ->
  x <> NULL -> m <> NULL -> heap st !! m = None ->
  q_pop_front queue_addr st = Blocks st /\
  q_pop_back queue_addr st = Blocks st /\
  (exists st1,
     q_push_back junk queue_addr x m st = Returns EXIT_SUCCESS st1 /\
     q_pop_front_locked st1 = Returns x st /\
     q_pop_back_locked st1 = Returns x st) /\
  (exists st1,
     q_push_front junk queue_addr x m st = Returns EXIT_SUCCESS st1 /\
     q_pop_front_locked st1 = Returns x st /\
     q_pop_back_locked st1 = Returns x st) /\
  (exists st1,
     q_deinit queue_addr st = Returns tt st1 /\
     q_pop_front_locked st1 = Returns NULL st1 /\
     q_pop_back_locked st1 = Returns NULL st1).
Proof.
  intros [Hseg Htl] (Hlk & Hr & Hd) Hx Hm Hfresh.
  destruct st as [h hd tl lk r d]. fields. simpl in Hseg, Htl. subst.
  split_and!.
  - by run_code.
  - by run_code.
  - eexists. split_and!; [by run_code | |];
      run_code; by rewrite delete_insert_id.
  - eexists. split_and!; [by run_code | |];
      run_code; by rewrite delete_insert_id.
  - eexists. split_and!.
    + run_code. assert (Hend : forall n st, free_loop n NULL st = Returns tt st)
        by (intros [] []; done).
      rewrite Hend. by run_code.
    + by run_code.
    + by run_code.
Qed.

End Mutex.

Section Memory.

Variable junk : node.

(** X1.  q_init asks nothing of the memory it is given: whatever the fields
    of the queue hold, after q_init a push, a traversal and a pop work, and
    the run ends with an empty live queue and the storage it began with
    (q_init frees nothing and allocates nothing). *)
Theorem init_makes_queue_usable (st : state) (x m : ptr) :
  lock st = false -> x <> NULL -> m <> NULL -> heap st !! m = None ->
  run junk [call_init queue_addr; call_push_back queue_addr x m;
            call_traverse queue_addr callback_fn;
            call_pop_front queue_addr] st
    = ([res_int EXIT_SUCCESS; res_int EXIT_SUCCESS;
        res_traverse EXIT_SUCCESS [x]; res_ptr x],
       Returns tt (State (heap st) NULL NULL false 0 0)).
Proof.
  intros Hlk Hx Hm Hfresh. destruct st as [h hd tl lk r d]. fields. subst lk.
  unfold run, exec. run_code.
  assert (Hsize : size (<[m := Node x NULL NULL]> h) = S (size h))
    by by apply map_size_insert_None.
  rewrite Hsize. simpl traverse_loop. run_code.
  change (wrap_int (0 + 1)) with 1. run_code.
  assert (Hend : forall n st, traverse_loop n NULL st = Returns [] st)
    by (by intros []).
  rewrite Hend. run_code.
  change (wrap_int (1 - 1)) with 0. run_code.
  by rewrite delete_insert_id.
Qed.

(** X8.  q_traverse never writes: in any memory whatever, with any list or
    none, a call that returns or waits leaves the whole memory as it was
    (the reader count is back at its value). *)
Theorem traverse_never_writes (q : queue_ptr) (f : callback) (st : state) :
  int_range (readers st) ->
  match q_traverse q f st with
  | Returns _ st' | Blocks st' => st' = st
  | _ => True
  end.
Proof.
  intros Hr. destruct st as [h hd tl lk r d]. fields.
  destruct q, f; try done. run_code.
  destruct (truthy d) eqn:Ed; run_code; [done |].
  destruct lk; run_code; [done |].
  rewrite Ed. run_code.
  destruct (truthy hd) eqn:Ehd; run_code; [| done].
  rewrite Ed. run_code.
  pose proof (traverse_loop_state (size h) hd
                (State h hd tl false (wrap_int (r + 1)) d)) as Hloop.
  destruct (traverse_loop _ _ _) as [calls st' | | |]; try done.
  subst st'. run_code. rewrite wrap_int_incr_decr by done.
  by destruct (r =? 0); run_code.
Qed.

(** X9.  The reader count and the destroyed flag in any memory whatever:
    a call other than q_init that returns or waits with the mutex free
    leaves the reader count as it was, and leaves the destroyed flag as it
    was unless it is the q_deinit that sets it. *)
Theorem counters_preserved (c : call) (st : state) :
  lock st = false -> int_range (readers st) ->
  (forall q, c <> call_init q) ->
  match exec junk c st with
  | Returns _ st' | Blocks st' =>
      readers st' = readers st /\
      (destroyed st' = destroyed st \/
       c = call_deinit queue_addr /\ destroyed st = 0 /\ destroyed st' = 1)
  | _ => True
  end.
Proof.
  intros Hlk Hr Hc. destruct st as [h hd tl lk r d]. fields. subst lk.
  destruct c as [q | q x m | q x m | q | q | q f | q];
    [by destruct (Hc q) | | | | | |];
    (destruct q; [simpl; by auto |]); unfold exec.
  - all_paths; by auto.
  - all_paths; by auto.
  - all_paths; by auto.
  - all_paths; by auto.
  - pose proof (traverse_never_writes queue_addr f
                  (State h hd tl false r d) Hr) as Hsame.
    unfold bind, ret.
    destruct (q_traverse queue_addr f _) as [res st' | st' | |];
      try done; subst st'; by auto.
  - all_paths; try (by auto);
      match goal with
      | |- context [free_loop ?n ?c ?s] =>
          pose proof (free_loop_state n c s) as Hloop;
          destruct (free_loop n c s) as [u st' | | |]
      end; try done; rewrite Hloop; all_paths.
    split; [done |]. right. repeat split.
    match goal with H : truthy d = false |- _ =>
      by apply negb_false_iff, Z.eqb_eq in H end.
Qed.

End Memory.

(** * The further properties on concrete memories *)

Lemma three_blocks_NoDup : NoDup [101; 102; 103].
Proof.
  repeat (apply NoDup_cons; split;
          [intros Hin;
           repeat (apply elem_of_cons in Hin as [Hin | Hin];
                   [discriminate Hin |]);
           by apply elem_of_nil in Hin |]).
  apply NoDup_nil_2.
Qed.

Lemma two_nodes_reader_repr :
  queue_repr two_nodes_reader [(101, 200); (102, 100)].
Proof. exact (queue_repr_set_readers two_nodes _ 1 two_nodes_repr). Qed.

(** X1 on a struct whose fields hold stale values. *)
Lemma init_makes_queue_usable_witness :
  run junk0 [call_init queue_addr; call_push_back queue_addr 7 101;
             call_traverse queue_addr callback_fn;
             call_pop_front queue_addr] stale_queue
    = ([res_int EXIT_SUCCESS; res_int EXIT_SUCCESS;
        res_traverse EXIT_SUCCESS [7]; res_ptr 7],
       Returns tt empty_queue).
Proof.
  apply (init_makes_queue_usable junk0 stale_queue 7 101);
    [reflexivity | discriminate | discriminate | reflexivity].
Defined.

(** X2 on the queue of two nodes with one reader registered: the push
    waits. *)
Lemma waiting_conditions_witness :
  q_push_front junk0 queue_addr 7 103 two_nodes_reader
    = Blocks two_nodes_reader /\
  q_traverse queue_addr callback_fn two_nodes_reader
    <> Blocks two_nodes_reader.
Proof.
  destruct (waiting_conditions junk0 two_nodes_reader
              [(101, 200); (102, 100)] 7 103 two_nodes_reader_repr)
    as (Hpush & _ & _ & _ & Htrav & _).
  - right. reflexivity.
  - discriminate.
  - split.
    + apply Hpush. split; [reflexivity |]. right. discriminate.
    + intros Hb. apply Htrav in Hb as (_ & [Hlk | Hl]); discriminate.
Defined.

(** X3 on the queue of two nodes. *)
Lemma reader_excludes_writers_witness :
  read_lock two_nodes = Returns tt two_nodes_reader /\
  q_pop_front queue_addr two_nodes_reader = Blocks two_nodes_reader /\
  q_traverse queue_addr callback_fn two_nodes_reader
    = Returns (EXIT_SUCCESS, [200; 100]) two_nodes_reader /\
  read_unlock two_nodes_reader = Returns tt two_nodes.
Proof.
  destruct (reader_excludes_writers junk0 two_nodes
              [(101, 200); (102, 100)] 7 103 two_nodes_repr)
    as (Hlock & _ & _ & Hpop & _ & _ & Htrav & Hunlock).
  - discriminate.
  - reflexivity.
  - reflexivity.
  - simpl. lia.
  - discriminate.
  - exact (conj Hlock (conj Hpop (conj Htrav Hunlock))).
Defined.

(** X4 on the queue of two nodes. *)
Lemma push_pop_restores_memory_witness :
  run junk0 [call_push_front queue_addr 7 103; call_pop_front queue_addr]
      two_nodes
    = ([res_int EXIT_SUCCESS; res_ptr 7], Returns tt two_nodes) /\
  run junk0 [call_push_back queue_addr 7 103; call_pop_back queue_addr]
      two_nodes
    = ([res_int EXIT_SUCCESS; res_ptr 7], Returns tt two_nodes).
Proof.
  apply (push_pop_restores_memory junk0 two_nodes [(101, 200); (102, 100)]).
  - exact two_nodes_repr.
  - exact two_nodes_ready.
  - discriminate.
  - discriminate.
  - reflexivity.
Defined.

(** X5 on two pushes and a pop followed by q_deinit. *)
Lemma deinit_leaves_no_node_witness :
  exists st',
    (run junk0 [call_push_front queue_addr 1 101;
                call_push_back queue_addr 2 102;
                call_pop_front queue_addr;
                call_deinit queue_addr] empty_queue).2 = Returns tt st' /\
    heap st' = heap empty_queue /\ destroyed st' = 1.
Proof.
  pose proof (deinit_leaves_no_node junk0
                [call_push_front queue_addr 1 101;
                 call_push_back queue_addr 2 102;
                 call_pop_front queue_addr] empty_queue
                empty_queue_repr empty_queue_ready
                ltac:(repeat constructor; done)
                ltac:(vm_compute; repeat split; discriminate)) as H.
  destruct (run junk0 _ empty_queue) as [rs [u st' | | |]] eqn:E;
    vm_compute in E; try discriminate E.
  destruct u. exists st'. split; [reflexivity |].
  destruct H as (Hh & _ & _ & Hd). by split.
Defined.

(** X6 on the payloads 1, 2, 3. *)
Lemma first_in_first_out_witness :
  run junk0 [call_push_back queue_addr 1 101; call_push_back queue_addr 2 102;
             call_push_back queue_addr 3 103;
             call_traverse queue_addr callback_fn;
             call_pop_front queue_addr; call_pop_front queue_addr;
             call_pop_front queue_addr] empty_queue
    = ([res_int EXIT_SUCCESS; res_int EXIT_SUCCESS; res_int EXIT_SUCCESS;
        res_traverse EXIT_SUCCESS [1; 2; 3];
        res_ptr 1; res_ptr 2; res_ptr 3], Returns tt empty_queue) /\
  run junk0 [call_push_front queue_addr 1 101;
             call_push_front queue_addr 2 102;
             call_push_front queue_addr 3 103;
             call_traverse queue_addr callback_fn;
             call_pop_back queue_addr; call_pop_back queue_addr;
             call_pop_back queue_addr] empty_queue
    = ([res_int EXIT_SUCCESS; res_int EXIT_SUCCESS; res_int EXIT_SUCCESS;
        res_traverse EXIT_SUCCESS [3; 2; 1];
        res_ptr 1; res_ptr 2; res_ptr 3], Returns tt empty_queue).
Proof.
  apply (first_in_first_out junk0 [1; 2; 3] [101; 102; 103] empty_queue).
  - exact empty_queue_repr.
  - exact empty_queue_ready.
  - discriminate.
  - repeat constructor; discriminate.
  - reflexivity.
  - exact three_blocks_NoDup.
  - repeat constructor; discriminate.
Defined.

(** X7 on the queue of two nodes: a pop leaves the mutex free. *)
Lemma mutex_discipline_witness :
  exists r st',
    exec junk0 (call_pop_back queue_addr) two_nodes = Returns r st' /\
    lock st' = false.
Proof.
  pose proof (proj1 (mutex_discipline junk0 (call_pop_back queue_addr)
                       two_nodes) eq_refl) as H.
  destruct (exec junk0 _ two_nodes) as [r st' | | |] eqn:E;
    vm_compute in E; try discriminate E.
  exists r, st'. by split.
Defined.

(** X8 on the queue of two nodes. *)
Lemma traverse_never_writes_witness :
  exists res,
    q_traverse queue_addr callback_fn two_nodes = Returns res two_nodes.
Proof.
  pose proof (traverse_never_writes queue_addr callback_fn two_nodes) as H.
  destruct (q_traverse queue_addr callback_fn two_nodes)
    as [res st' | | |] eqn:E; vm_compute in E; try discriminate E.
  exists res. rewrite H; [reflexivity |]. unfold int_range. simpl. lia.
Defined.

(** X9 on q_deinit of the queue of two nodes. *)
Lemma counters_preserved_witness :
  exists r st',
    exec junk0 (call_deinit queue_addr) two_nodes = Returns r st' /\
    readers st' = readers two_nodes /\ destroyed st' = 1.
Proof.
  pose proof (counters_preserved junk0 (call_deinit queue_addr) two_nodes
                eq_refl) as H.
  destruct (exec junk0 _ two_nodes) as [r st' | | |] eqn:E;
    vm_compute in E; try discriminate E.
  exists r, st'. split; [reflexivity |].
  destruct H as [Hr [Hd | (_ & _ & Hd)]].
  - unfold int_range. simpl. lia.
  - discriminate.
  - injection E as _ <-. discriminate Hd.
  - by split.
Defined.

(** X10 on the payloads 1, 2, 3. *)
Lemma last_in_first_out_witness :
  run junk0 [call_push_front queue_addr 1 101;
             call_push_front queue_addr 2 102;
             call_push_front queue_addr 3 103;
             call_pop_front queue_addr; call_pop_front queue_addr;
             call_pop_front queue_addr] empty_queue
    = ([res_int EXIT_SUCCESS; res_int EXIT_SUCCESS; res_int EXIT_SUCCESS;
        res_ptr 3; res_ptr 2; res_ptr 1], Returns tt empty_queue).
Proof.
  apply (last_in_first_out junk0 [1; 2; 3] [101; 102; 103] empty_queue).
  - exact empty_queue_repr.
  - exact empty_queue_ready.
  - repeat constructor; discriminate.
  - reflexivity.
  - exact three_blocks_NoDup.
  - repeat constructor; discriminate.
Defined.

(** X11 on the queue after [q_init]. *)
Lemma waiting_pop_is_served_witness :
  q_pop_front queue_addr empty_queue = Blocks empty_queue /\
  exists st1,
    q_push_back junk0 queue_addr 7 101 empty_queue
      = Returns EXIT_SUCCESS st1 /\
    q_pop_front_locked st1 = Returns 7 empty_queue.
Proof.
  destruct (waiting_pop_is_served junk0 empty_queue 7 101
              empty_queue_repr empty_queue_ready)
    as (Hwait & _ & (st1 & Hpush & Hpop & _) & _).
  - discriminate.
  - discriminate.
  - reflexivity.
  - split; [exact Hwait |]. exists st1. by split.
Defined.
